(** * s4cmb, time-ordered data: pointing model, UT1-UTC lookup, sky maps

    A shallow embedding of [time_ordered_data/tod.py] and
    [time_ordered_data/input_sky.py].

    Conventions of the embedding.
    - Python exceptions are values of [exn]; a call that may raise returns a
      [result], threaded with the monadic bind [x ← c; k].
    - Floating-point numbers are read as exact numbers: reals ([R]) where
      the code does arithmetic and trigonometry, rationals ([Q]) where it
      only compares and copies (the UT1-UTC table), so that the search
      runs.  Rounding, infinities and NaN are not modelled; division is
      [Rdiv], total on [R], so a statement that gives the values computed
      carries the condition that no divisor is zero.
    - One-dimensional numpy arrays are lists; element-wise operations follow
      numpy's broadcasting rule for one-dimensional shapes. *)

From Stdlib Require Import Reals QArith Lra Lia Sorting.Sorted.
From Equations Require Import Equations.
From stdpp Require Import gmap strings list fin_maps sorting.

(** ** Exceptions and results *)

Inductive exn : Set :=
| AssertionError
| ValueError
| IndexError
| KeyError
| TypeError.

Inductive result (A : Type) : Type :=
| Ok (a : A)
| Raise (e : exn).
Arguments Ok {A} a.
Arguments Raise {A} e.

#[global] Instance result_ret : MRet result := fun A a => Ok a.
#[global] Instance result_bind : MBind result := fun A B f m =>
  match m with
  | Ok a => f a
  | Raise e => Raise e
  end.

Definition is_Ok {A} (m : result A) : Prop := exists a, m = Ok a.

(** [seq[i]] on a Python sequence or a numpy array: a negative index counts
    from the end, anything outside [-len, len) raises [IndexError]. *)
Definition getitem {A} (l : list A) (i : Z) : result A :=
  let n := Z.of_nat (length l) in
  let j := if (i <? 0)%Z then (i + n)%Z else i in
  if (j <? 0)%Z then Raise IndexError
  else match l !! Z.to_nat j with
       | Some x => Ok x
       | None => Raise IndexError
       end.

(** A non-negative index is looked up as it is. *)
Lemma getitem_nat {A} (l : list A) (n : nat) :
  getitem l (Z.of_nat n) =
  match l !! n with Some x => Ok x | None => Raise IndexError end.
Proof.
  unfold getitem.
  destruct (Z.ltb_spec (Z.of_nat n) 0) as [Hneg|_]; [lia|].
  destruct (Z.ltb_spec (Z.of_nat n) 0) as [Hneg|_]; [lia|].
  by rewrite Nat2Z.id.
Qed.

(** ** UT1-UTC table ([pointing.get_ut1utc]) *)

Module UT1UTC.

(** What [np.loadtxt] returns: a two-dimensional array with one row per
    table entry, or a one-dimensional array. *)
Inductive loaded : Type :=
| Table (t : list (Q * Q))
| Vector (r : list Q).

(** A value unpacked from an array: a row of it, or a single number. *)
Inductive ndvalue : Type :=
| Array (a : list Q)
| Scalar (x : Q).

(** The columns at two positions of every row; a row that lacks one of them
    is rejected. *)
Definition select (rows : list (list Q)) (usecols : nat * nat)
  : result (list (Q * Q)) :=
  mapM (fun row =>
          match row !! fst usecols, row !! snd usecols with
          | Some a, Some b => Ok (a, b)
          | _, _ => Raise ValueError
          end) rows.

(** The ephemeris file, as its rows of numbers.  [np.loadtxt] with
    [usecols=(1, 2)] keeps the columns at positions 1 and 2 of every row and
    then removes the axes of length one: a file of a single row comes back
    as the one-dimensional array of its two numbers, any other file as the
    two-dimensional array of its rows.  The parsing of the text is the
    library's and is left out. *)
Definition loadtxt (rows : list (list Q)) (usecols : nat * nat)
  : result loaded :=
  t ← select rows usecols;
  match t with
  | [(a, b)] => Ok (Vector [a; b])
  | _ => Ok (Table t)
  end.

(** [umjds, ut1utcs = x.T]: the two rows of the transposed table; a
    one-dimensional array is its own transpose and unpacks into its
    entries, which must be two. *)
Definition unpack_T (x : loaded) : result (ndvalue * ndvalue) :=
  match x with
  | Table t => Ok (Array t.*1, Array t.*2)
  | Vector [a; b] => Ok (Scalar a, Scalar b)
  | Vector _ => Raise ValueError
  end.

(** The midpoint of a non-empty interval lies inside it. *)
Lemma half_lt (imin imax : nat) :
  imin < imax -> (imax - imin) / 2 < imax - imin.
Proof. intros H. apply Nat.div_lt; lia. Qed.

Ltac midpoint :=
  match goal with
  | H : ?imin < ?imax |- _ =>
      let Hmid := fresh "Hmid" in
      pose proof (half_lt imin imax H) as Hmid;
      revert Hmid; generalize ((imax - imin) / 2); intros
  end.

(** [np.searchsorted(a, v)], default [side='left']: numpy's binary search
    [while (min < max) { mid = min + ((max - min) >> 1);
                         if (a[mid] < v) min = mid + 1; else max = mid; }]. *)
Equations? binsearch_left (a : list Q) (v : Q) (imin imax : nat) : nat
  by wf (imax - imin) lt :=
  binsearch_left a v imin imax with lt_dec imin imax := {
    | right _ => imin
    | left _ with Qlt_le_dec (nth (imin + (imax - imin) / 2) a 0%Q) v := {
        | left _ => binsearch_left a v (S (imin + (imax - imin) / 2)) imax
        | right _ => binsearch_left a v imin (imin + (imax - imin) / 2) } }.
Proof.
  all: clear binsearch_left; midpoint; lia.
Qed.

Definition searchsorted (a : list Q) (v : Q) : nat :=
  binsearch_left a v 0 (length a).

(** [np.searchsorted] wants an array of one dimension and rejects a single
    number. *)
Definition np_searchsorted (a : ndvalue) (v : Q) : result nat :=
  match a with
  | Array a => Ok (searchsorted a v)
  | Scalar _ => Raise ValueError
  end.

(** [a[i]] on an unpacked value; a single number cannot be indexed. *)
Definition np_getitem (a : ndvalue) (i : Z) : result Q :=
  match a with
  | Array a => getitem a i
  | Scalar _ => Raise IndexError
  end.

(** [get_ut1utc(ut1utc_fn, mjd)], lines 179-183. *)
Definition get_ut1utc (ut1utc_fn : list (list Q)) (mjd : Q) : result Q :=
  x ← loadtxt ut1utc_fn (1, 2)%nat;
  '(umjds, ut1utcs) ← unpack_T x;
  uindex ← np_searchsorted umjds mjd;
  ut1utc ← np_getitem ut1utcs (Z.of_nat uindex);
  Ok ut1utc.

(** The two columns of a row the lookup reads. *)
Definition mjd_of (row : list Q) : Q := nth 1 row 0%Q.
Definition corr_of (row : list Q) : Q := nth 2 row 0%Q.

Example get_ut1utc_ex1 :
  get_ut1utc [[0; 56292; 0.2781]; [0; 56293; 0.2770]; [0; 56294; 0.2758]]%Q
             56293%Q = Ok 0.2770%Q.
Proof. reflexivity. Qed.

Example get_ut1utc_ex2 :
  get_ut1utc [[0; 56292; 0.2781]; [0; 56293; 0.2770]; [0; 56294; 0.2758]]%Q
             56292.5%Q = Ok 0.2770%Q.
Proof. reflexivity. Qed.

Example get_ut1utc_ex3 :
  get_ut1utc [[0; 56292; 0.2781]; [0; 56293; 0.2770]; [0; 56294; 0.2758]]%Q
             56295%Q = Raise IndexError.
Proof. reflexivity. Qed.

(** *** Properties of the lookup *)

Lemma select_ok (rows : list (list Q)) :
  Forall (fun row => 3 <= length row) rows ->
  select rows (1, 2)%nat = Ok ((fun row => (mjd_of row, corr_of row)) <$> rows).
Proof.
  unfold select. induction 1 as [|row rows Hrow _ IH]; [done|].
  cbn [mapM]. rewrite IH.
  destruct row as [|c0 [|c1 [|c2 row]]]; simpl in Hrow; try lia.
  reflexivity.
Qed.

(** On a file that is not a single row the lookup is the search in column 1
    followed by the indexing of column 2. *)
Lemma get_ut1utc_table (rows : list (list Q)) (mjd : Q) :
  Forall (fun row => 3 <= length row) rows ->
  length rows <> 1 ->
  get_ut1utc rows mjd =
  getitem (corr_of <$> rows) (Z.of_nat (searchsorted (mjd_of <$> rows) mjd)).
Proof.
  intros Hcols Hlen. unfold get_ut1utc, loadtxt.
  rewrite select_ok by done. cbn [mbind result_bind].
  destruct rows as [|r1 [|r2 rows]]; [| done |].
  - reflexivity.
  - cbn [fmap list_fmap mbind result_bind unpack_T np_searchsorted np_getitem].
    cbn [fst snd]. rewrite <- !list_fmap_compose.
    change (fst ∘ _) with mjd_of. change (snd ∘ _) with corr_of.
    by destruct (getitem _ _).
Qed.

(** A file of a single row is not a table for the lookup. *)
Lemma get_ut1utc_single_row (row : list Q) (mjd : Q) :
  3 <= length row ->
  get_ut1utc [row] mjd = Raise ValueError.
Proof.
  intros Hrow. unfold get_ut1utc, loadtxt.
  rewrite select_ok by by constructor. reflexivity.
Qed.

Lemma binsearch_left_range a v imin imax :
  imin <= imax ->
  imin <= binsearch_left a v imin imax <= imax.
Proof.
  funelim (binsearch_left a v imin imax); intros Hle; [lia| |].
  all: match goal with IH : _ -> _ <= binsearch_left _ _ _ _ <= _ |- _ =>
         revert IH end.
  all: clear Heqcall; midpoint; lia.
Qed.

(** Loop invariant of the search: everything left of [imin] is below [v],
    everything from [imax] on is at least [v]. *)
Lemma binsearch_left_split a v imin imax :
  (forall i j, i <= j -> j < length a -> (nth i a 0 <= nth j a 0)%Q) ->
  imin <= imax <= length a ->
  (forall i, i < imin -> (nth i a 0 < v)%Q) ->
  (forall i, imax <= i -> i < length a -> (v <= nth i a 0)%Q) ->
  (forall i, i < binsearch_left a v imin imax -> (nth i a 0 < v)%Q) /\
  (forall i, binsearch_left a v imin imax <= i -> i < length a ->
             (v <= nth i a 0)%Q).
Proof.
  funelim (binsearch_left a v imin imax); intros Hsorted Hrange Hlo Hhi.
  - split; [done|]. intros i Hi Hlen. apply Hhi; lia.
  - (* a[mid] < v: continue right of mid *)
    pose proof (half_lt _ _ l).
    apply H; [done|lia| |done].
    intros i Hi. eapply Qle_lt_trans; [|exact q].
    apply Hsorted; lia.
  - (* v <= a[mid]: continue left of mid *)
    pose proof (half_lt _ _ l).
    apply H; [done|lia|done|].
    intros i Hi Hlen. eapply Qle_trans; [exact q0|].
    apply Hsorted; lia.
Qed.

Lemma Sorted_nth_le (a : list Q) :
  Sorted Qle a ->
  forall i j, i <= j -> j < length a -> (nth i a 0 <= nth j a 0)%Q.
Proof.
  intros Hs. apply Sorted_StronglySorted in Hs;
    [|intros x y z; apply Qle_trans].
  induction Hs as [|x a Hs IH Hall]; intros i j Hij Hj; simpl in *; [lia|].
  destruct i as [|i], j as [|j]; try lia.
  - apply Qle_refl.
  - rewrite Forall_forall in Hall. apply Hall, list_elem_of_In, nth_In. lia.
  - apply IH; lia.
Qed.

Lemma searchsorted_split (a : list Q) v :
  Sorted Qle a ->
  searchsorted a v <= length a /\
  (forall i, i < searchsorted a v -> (nth i a 0 < v)%Q) /\
  (forall i, searchsorted a v <= i -> i < length a -> (v <= nth i a 0)%Q).
Proof.
  intros Hs. unfold searchsorted. split.
  - apply binsearch_left_range. lia.
  - apply binsearch_left_split; [by apply Sorted_nth_le|lia| |]; intros; lia.
Qed.

(** The entry at the insertion point is the first one at or after [v]. *)
Lemma find_insertion_point (rows : list (list Q)) v r :
  (forall i, i < r -> (nth i (mjd_of <$> rows) 0 < v)%Q) ->
  (forall i, r <= i -> i < length rows -> (v <= nth i (mjd_of <$> rows) 0)%Q) ->
  r <= length rows ->
  find (fun row => Qle_bool v (mjd_of row)) rows = rows !! r.
Proof.
  revert r. induction rows as [|row rows IH]; intros r Hlo Hhi Hr.
  - by destruct r.
  - destruct r as [|r]; simpl in *.
    + rewrite (proj2 (Qle_bool_iff _ _)); [done|]. apply (Hhi 0); lia.
    + destruct (Qle_bool v (mjd_of row)) eqn:Hb.
      * apply Qle_bool_iff in Hb. specialize (Hlo 0 ltac:(lia)). simpl in Hlo.
        exfalso. eapply Qlt_irrefl, Qlt_le_trans; eauto.
      * apply IH; [|intros i ? ?; apply (Hhi (S i)); lia|lia].
        intros i Hi. apply (Hlo (S i)). lia.
Qed.

Lemma get_ut1utc_find (rows : list (list Q)) (mjd : Q) :
  Forall (fun row => 3 <= length row) rows ->
  length rows <> 1 ->
  Sorted Qle (mjd_of <$> rows) ->
  get_ut1utc rows mjd =
  match find (fun row => Qle_bool mjd (mjd_of row)) rows with
  | Some row => Ok (corr_of row)
  | None => Raise IndexError
  end.
Proof.
  intros Hcols Hlen Hsorted. rewrite get_ut1utc_table by done.
  destruct (searchsorted_split (mjd_of <$> rows) mjd Hsorted)
    as (Hr & Hlo & Hhi).
  rewrite length_fmap in Hr, Hhi.
  rewrite (find_insertion_point rows mjd _ Hlo Hhi Hr).
  rewrite getitem_nat, list_lookup_fmap.
  by destruct (rows !! _).
Qed.

(** A table of three entries, used to try the statements below. *)
Definition ephem_ex : list (list Q) :=
  [[0; 56292; 0.2781]; [0; 56293; 0.2770]; [0; 56294; 0.2758]]%Q.

Lemma ephem_ex_columns : Forall (fun row => 3 <= length row) ephem_ex.
Proof. repeat constructor. Qed.

Lemma ephem_ex_sorted : Sorted Qle (mjd_of <$> ephem_ex).
Proof. repeat constructor; by vm_compute. Qed.

(** *** The claims on the lookup *)

(** C4.  The lookup at a file of a single row: the row has an mjd greater
    than or equal to the query, and [get_ut1utc] raises [ValueError] instead
    of returning its correction. *)
Lemma get_ut1utc_single_row_raises :
  find (fun row => Qle_bool 56292 (mjd_of row)) [[0; 56292; 0.5]]%Q
    = Some [0; 56292; 0.5]%Q /\
  get_ut1utc [[0; 56292; 0.5]]%Q 56292%Q = Raise ValueError /\
  get_ut1utc [[0; 56292; 0.5]]%Q 56292%Q <> Ok 0.5%Q.
Proof. by repeat split. Qed.

(** X22.  On a table of at least two rows, whose rows have the columns 1
    and 2 and are sorted ascending by column 1 (the mjd), [get_ut1utc]
    returns column 2 (the correction) of the first row whose mjd is greater
    than or equal to the query, as it stands in the table, with no
    interpolation; when no row has such an mjd the lookup raises
    [IndexError]. *)
Theorem get_ut1utc_first_entry (rows : list (list Q)) (mjd : Q) :
  2 <= length rows ->
  Forall (fun row => 3 <= length row) rows ->
  Sorted Qle (mjd_of <$> rows) ->
  get_ut1utc rows mjd =
  match find (fun row => Qle_bool mjd (mjd_of row)) rows with
  | Some row => Ok (corr_of row)
  | None => Raise IndexError
  end.
Proof. intros Hlen Hcols Hsorted. apply get_ut1utc_find; [done|lia|done]. Qed.

Lemma get_ut1utc_first_entry_witness :
  get_ut1utc ephem_ex 56292.5%Q =
  match find (fun row => Qle_bool 56292.5%Q (mjd_of row)) ephem_ex with
  | Some row => Ok (corr_of row)
  | None => Raise IndexError
  end.
Proof.
  apply (get_ut1utc_first_entry ephem_ex 56292.5%Q).
  - simpl. lia.
  - apply ephem_ex_columns.
  - apply ephem_ex_sorted.
Defined.

(** C9.  The lookup at a file of a single row, for a query above its mjd:
    the table is not empty and sorted, yet no insertion point is computed,
    the search itself raises [ValueError], and the error of the lookup is
    not the out-of-range [IndexError]. *)
Lemma get_ut1utc_single_row_past_end :
  Forall (fun row => (mjd_of row < 56293)%Q) [[0; 56292; 0.5]]%Q /\
  (x ← loadtxt [[0; 56292; 0.5]]%Q (1, 2)%nat;
   '(umjds, _) ← unpack_T x;
   np_searchsorted umjds 56293%Q) = Raise ValueError /\
  get_ut1utc [[0; 56292; 0.5]]%Q 56293%Q <> Raise IndexError.
Proof. repeat split; [by repeat constructor|done]. Qed.

(** X23.  On a sorted table of at least two rows, for a query strictly
    greater than every mjd of the table, the insertion point is the length
    of the table, one past the last correction, and [get_ut1utc] raises
    [IndexError]. *)
Theorem get_ut1utc_past_end (rows : list (list Q)) (mjd : Q) :
  2 <= length rows ->
  Forall (fun row => 3 <= length row) rows ->
  Sorted Qle (mjd_of <$> rows) ->
  Forall (fun row => (mjd_of row < mjd)%Q) rows ->
  searchsorted (mjd_of <$> rows) mjd = length rows /\
  get_ut1utc rows mjd = Raise IndexError.
Proof.
  intros Hlen Hcols Hsorted Hbelow.
  destruct (searchsorted_split (mjd_of <$> rows) mjd Hsorted)
    as (Hr & _ & Hhi).
  rewrite length_fmap in Hr, Hhi.
  assert (searchsorted (mjd_of <$> rows) mjd = length rows) as Hend.
  { destruct (decide (searchsorted (mjd_of <$> rows) mjd = length rows))
      as [|Hne]; [done|].
    assert (searchsorted (mjd_of <$> rows) mjd < length rows) as Hlt by lia.
    destruct (lookup_lt_is_Some_2 rows _ Hlt) as [row Hrow].
    specialize (Hhi _ (le_n _) Hlt).
    rewrite (nth_lookup_Some _ _ _ (mjd_of row)) in Hhi
      by by rewrite list_lookup_fmap, Hrow.
    rewrite Forall_forall in Hbelow.
    specialize (Hbelow row (list_elem_of_lookup_2 _ _ _ Hrow)).
    exfalso. eapply Qlt_irrefl, Qlt_le_trans; eauto. }
  split; [done|].
  rewrite get_ut1utc_table by (done || lia). rewrite Hend.
  rewrite getitem_nat, list_lookup_fmap.
  by rewrite lookup_ge_None_2.
Qed.

Lemma get_ut1utc_past_end_witness :
  searchsorted (mjd_of <$> ephem_ex) 56295%Q = length ephem_ex /\
  get_ut1utc ephem_ex 56295%Q = Raise IndexError.
Proof.
  apply (get_ut1utc_past_end ephem_ex 56295%Q).
  - simpl. lia.
  - apply ephem_ex_columns.
  - apply ephem_ex_sorted.
  - repeat constructor; by vm_compute.
Defined.

(** *** Further properties of the lookup *)

Lemma select_Ok_inv (rows : list (list Q)) table :
  select rows (1, 2)%nat = Ok table ->
  Forall (fun row => 3 <= length row) rows.
Proof.
  unfold select. revert table.
  induction rows as [|row rows IH]; intros table Hload; [constructor|].
  cbn [mapM] in Hload.
  destruct (row !! fst (1, 2)%nat) as [a|] eqn:Ha; [|done].
  destruct (row !! snd (1, 2)%nat) as [b|] eqn:Hb; [|done].
  cbn [mbind result_bind] in Hload.
  destruct (mapM _ rows) as [table'|] eqn:Hrest; [|done].
  constructor; [|by eapply IH].
  apply lookup_lt_Some in Hb. simpl in Hb. lia.
Qed.

(** X1.  Whatever the order of the table, a correction that [get_ut1utc]
    returns stands in column 2 of some row of the table: the lookup never
    reads outside the table and never computes a value of its own. *)
Theorem get_ut1utc_tabulated (rows : list (list Q)) (mjd c : Q) :
  get_ut1utc rows mjd = Ok c ->
  exists row, row ∈ rows /\ row !! 2%nat = Some c.
Proof.
  intros Hget.
  assert (Forall (fun row => 3 <= length row) rows) as Hcols.
  { unfold get_ut1utc, loadtxt in Hget.
    destruct (select rows (1, 2)%nat) as [table|] eqn:Hload; [|done].
    by eapply select_Ok_inv. }
  destruct (decide (length rows = 1)) as [Hone|Hmore].
  { destruct rows as [|row [|]]; try done.
    rewrite get_ut1utc_single_row in Hget; [done|].
    by apply Forall_cons in Hcols as [? _]. }
  rewrite get_ut1utc_table in Hget by done.
  rewrite getitem_nat, list_lookup_fmap in Hget.
  destruct (rows !! _) as [row|] eqn:Hrow; [|done].
  injection Hget as <-. exists row. split.
  - by eapply list_elem_of_lookup_2.
  - rewrite Forall_forall in Hcols.
    specialize (Hcols row (list_elem_of_lookup_2 _ _ _ Hrow)).
    destruct row as [|c0 [|c1 [|c2 row]]]; simpl in Hcols; try lia.
    reflexivity.
Qed.

Lemma get_ut1utc_tabulated_witness :
  exists row, row ∈ ephem_ex /\ row !! 2%nat = Some 0.2770%Q.
Proof.
  apply (get_ut1utc_tabulated ephem_ex 56292.5%Q 0.2770%Q). reflexivity.
Defined.

(** X2.  On a sorted array the insertion point does not decrease when the
    query grows. *)
Theorem searchsorted_monotone (a : list Q) (v1 v2 : Q) :
  Sorted Qle a ->
  (v1 <= v2)%Q ->
  searchsorted a v1 <= searchsorted a v2.
Proof.
  intros Hs Hv.
  destruct (searchsorted_split a v1 Hs) as (Hr1 & Hlo1 & _).
  destruct (searchsorted_split a v2 Hs) as (Hr2 & _ & Hhi2).
  destruct (le_lt_dec (searchsorted a v1) (searchsorted a v2)) as [|Hlt];
    [done|].
  specialize (Hlo1 _ Hlt). specialize (Hhi2 _ (le_n _) ltac:(lia)).
  exfalso. eapply Qlt_irrefl, Qlt_le_trans; [exact Hlo1|].
  eapply Qle_trans; eauto.
Qed.

Lemma searchsorted_monotone_witness :
  searchsorted (mjd_of <$> ephem_ex) 56292.5%Q <=
  searchsorted (mjd_of <$> ephem_ex) 56294%Q.
Proof.
  apply (searchsorted_monotone (mjd_of <$> ephem_ex) 56292.5%Q 56294%Q).
  - apply ephem_ex_sorted.
  - by vm_compute.
Defined.

#[local] Instance Qle_transitive : Transitive Qle.
Proof. intros x y z. apply Qle_trans. Qed.

(** X3.  [searchsorted] returns an insertion point: putting the query at
    the returned position of a sorted array leaves the array sorted. *)
Theorem searchsorted_insertion (a : list Q) (v : Q) :
  Sorted Qle a ->
  Sorted Qle (take (searchsorted a v) a ++ v :: drop (searchsorted a v) a).
Proof.
  intros Hs. destruct (searchsorted_split a v Hs) as (Hr & Hlo & Hhi).
  apply Sorted_StronglySorted in Hs; [|apply _].
  rewrite <- (take_drop (searchsorted a v) a) in Hs at 1.
  apply StronglySorted_app in Hs as (Hcross & Hleft & Hright).
  assert (forall x, x ∈ take (searchsorted a v) a -> (x < v)%Q) as Hbelow.
  { intros x Hx. apply list_elem_of_lookup in Hx as [i Hi].
    pose proof (lookup_lt_Some _ _ _ Hi) as Hlen.
    rewrite length_take in Hlen.
    rewrite lookup_take_lt in Hi by lia.
    specialize (Hlo i ltac:(lia)). by rewrite nth_lookup, Hi in Hlo. }
  assert (forall x, x ∈ drop (searchsorted a v) a -> (v <= x)%Q) as Habove.
  { intros x Hx. apply list_elem_of_lookup in Hx as [i Hi].
    rewrite lookup_drop in Hi.
    pose proof (lookup_lt_Some _ _ _ Hi) as Hlen.
    specialize (Hhi _ (Nat.le_add_r _ i) Hlen).
    by rewrite nth_lookup, Hi in Hhi. }
  apply StronglySorted_Sorted, StronglySorted_app_2; [|done|].
  - intros x1 x2 Hx1 Hx2. apply elem_of_cons in Hx2 as [->|Hx2].
    + by apply Qlt_le_weak, Hbelow.
    + by apply Hcross.
  - constructor; [done|]. by apply Forall_forall.
Qed.

Lemma searchsorted_insertion_witness :
  Sorted Qle
    (take (searchsorted (mjd_of <$> ephem_ex) 56292.5%Q) (mjd_of <$> ephem_ex)
     ++ 56292.5%Q ::
     drop (searchsorted (mjd_of <$> ephem_ex) 56292.5%Q) (mjd_of <$> ephem_ex)).
Proof.
  apply (searchsorted_insertion (mjd_of <$> ephem_ex) 56292.5%Q).
  apply ephem_ex_sorted.
Defined.

(** X4.  On a sorted table with the columns 1 and 2 the lookup succeeds
    exactly when the table has at least two rows and some row has an mjd
    greater than or equal to the query. *)
Theorem get_ut1utc_succeeds_iff (rows : list (list Q)) (mjd : Q) :
  Forall (fun row => 3 <= length row) rows ->
  Sorted Qle (mjd_of <$> rows) ->
  is_Ok (get_ut1utc rows mjd) <->
  2 <= length rows /\ Exists (fun row => (mjd <= mjd_of row)%Q) rows.
Proof.
  intros Hcols Hsorted.
  destruct (decide (length rows = 1)) as [Hone|Hmore].
  { destruct rows as [|row [|]]; try done.
    rewrite get_ut1utc_single_row by by apply Forall_cons in Hcols as [? _].
    split; [by intros [c ?]|]. simpl. lia. }
  rewrite get_ut1utc_find by done.
  destruct (find _ rows) as [row|] eqn:Hfind.
  - split; [intros _|by eexists].
    apply find_some in Hfind as [Hin Hle]. split.
    + destruct rows as [|r1 [|r2 rows]]; simpl in *; [done|lia|lia].
    + apply Exists_exists. exists row.
      split; [by apply list_elem_of_In|by apply Qle_bool_iff].
  - split; [by intros [c ?]|]. intros [_ Hex].
    apply Exists_exists in Hex as (row & Hin & Hle).
    apply list_elem_of_In in Hin.
    pose proof (find_none _ _ Hfind row Hin) as Hno. simpl in Hno.
    apply Qle_bool_iff in Hle. congruence.
Qed.

Lemma get_ut1utc_succeeds_iff_witness :
  is_Ok (get_ut1utc ephem_ex 56292.5%Q) <->
  2 <= length ephem_ex /\
  Exists (fun row => (56292.5 <= mjd_of row)%Q) ephem_ex.
Proof.
  apply (get_ut1utc_succeeds_iff ephem_ex 56292.5%Q).
  - apply ephem_ex_columns.
  - apply ephem_ex_sorted.
Defined.

Lemma Sorted_Qlt_Qle (a : list Q) : Sorted Qlt a -> Sorted Qle a.
Proof.
  induction 1 as [|x a _ IH Hhd]; constructor; [done|].
  destruct Hhd; constructor. by apply Qlt_le_weak.
Qed.

(** X5.  On a table of at least two rows with strictly increasing mjds, a
    query equal to the mjd of a row returns the correction of that very
    row. *)
Theorem get_ut1utc_exact (rows : list (list Q)) (row : list Q) (mjd : Q) :
  2 <= length rows ->
  Forall (fun row => 3 <= length row) rows ->
  Sorted Qlt (mjd_of <$> rows) ->
  row ∈ rows ->
  (mjd == mjd_of row)%Q ->
  get_ut1utc rows mjd = Ok (corr_of row).
Proof.
  intros Hlen Hcols Hsorted Hin Heq.
  rewrite get_ut1utc_find by (done || lia || by apply Sorted_Qlt_Qle).
  clear Hlen.
  apply Sorted.Sorted_StronglySorted in Hsorted;
    [|intros x y z; apply Qlt_trans].
  clear Hcols. induction rows as [|r rows IH]; [by apply elem_of_nil in Hin|].
  cbn [fmap list_fmap] in Hsorted.
  apply StronglySorted_cons in Hsorted as [Hall Hrest].
  cbn [find]. apply elem_of_cons in Hin as [->|Hin].
  - rewrite (proj2 (Qle_bool_iff _ _)); [done|]. rewrite Heq. apply Qle_refl.
  - assert (mjd_of r < mjd)%Q as Hlt.
    { rewrite Heq. rewrite Forall_forall in Hall. apply Hall.
      by apply list_elem_of_fmap_2. }
    destruct (Qle_bool mjd (mjd_of r)) eqn:Hb; [|by apply IH].
    apply Qle_bool_iff in Hb. exfalso.
    eapply Qlt_irrefl, Qlt_le_trans; eauto.
Qed.

Lemma get_ut1utc_exact_witness :
  get_ut1utc ephem_ex 56293%Q = Ok (corr_of [0; 56293; 0.2770]%Q).
Proof.
  apply (get_ut1utc_exact ephem_ex [0; 56293; 0.2770]%Q 56293%Q).
  - simpl. lia.
  - apply ephem_ex_columns.
  - repeat constructor; by vm_compute.
  - apply list_elem_of_further, list_elem_of_here.
  - reflexivity.
Defined.

End UT1UTC.

(** ** Pointing model ([pointing.apply_pointing_model]) *)

Module Pointing.

#[local] Open Scope R_scope.

Definition sec2deg : R := 360.0 / 86400.0.
Definition d2r : R := PI / 180.0.

(** *** Python and numpy primitives the method uses *)

(** [str.split()] with no argument: the words between runs of whitespace
    (ASCII whitespace of [str.isspace]: 9-13 and 28-32). *)
Definition is_space (c : Ascii.ascii) : bool :=
  let n := Ascii.nat_of_ascii c in
  ((9 <=? n)%nat && (n <=? 13)%nat) || ((28 <=? n)%nat && (n <=? 32)%nat).

Definition flush (word : string) (words : list string) : list string :=
  if decide (word = EmptyString) then words else word :: words.

Fixpoint split_from (word : string) (s : string) : list string :=
  match s with
  | EmptyString => flush word []
  | String c rest =>
      if is_space c then flush word (split_from EmptyString rest)
      else split_from (word +:+ String c EmptyString) rest
  end.

Definition split (s : string) : list string := split_from EmptyString s.

Example split_ex1 : split "ia ie ca an aw" = ["ia"; "ie"; "ca"; "an"; "aw"]%string.
Proof. reflexivity. Qed.

Example split_ex2 : split "  ia   ie " = ["ia"; "ie"]%string.
Proof. reflexivity. Qed.

(** [list.index(x)]: position of the first element equal to [x]. *)
Definition index (l : list string) (x : string) : result nat :=
  match list_find (eq x) l with
  | Some (i, _) => Ok i
  | None => Raise ValueError
  end.

(** [d[k]] on a dict. *)
Definition item (d : gmap string R) (k : string) : result R :=
  match d !! k with
  | Some v => Ok v
  | None => Raise KeyError
  end.

(** [for x in xs: s = body(s, x)]. *)
Fixpoint for_in {A S} (xs : list A) (body : S -> A -> result S) (s : S)
  : result S :=
  match xs with
  | [] => Ok s
  | x :: xs' => s' ← body s x; for_in xs' body s'
  end.

(** [a op b] on two one-dimensional arrays: shapes [(n,)] and [(m,)]
    broadcast when [n = m] or one of them is 1. *)
Definition broadcast (op : R -> R -> R) (a b : list R) : result (list R) :=
  if decide (length a = length b) then Ok (zip_with op a b)
  else match a, b with
       | [x], _ => Ok (op x <$> b)
       | _, [y] => Ok ((fun x => op x y) <$> a)
       | _, _ => Raise ValueError
       end.

(** [a op= b]: as [broadcast], but the result is stored in [a] and must have
    the shape of [a]. *)
Definition inplace (op : R -> R -> R) (a b : list R) : result (list R) :=
  if decide (length a = length b) then Ok (zip_with op a b)
  else match b with
       | [y] => Ok ((fun x => op x y) <$> a)
       | _ => Raise ValueError
       end.

(** [np.min(a)]: fails on an empty array. *)
Definition np_min (a : list R) : result R :=
  match a with
  | [] => Raise ValueError
  | x :: a' => Ok (foldl Rmin x a')
  end.

(** *** The object and the method *)

(** The fields of a [pointing] object that [apply_pointing_model] reads;
    [lat] is [self.lat], already in radians. *)
Record pointing : Type := {
  az_enc : list R;
  el_enc : list R;
  time : list R;
  value_params : list R;
  allowed_params : string;
  lat : R
}.

(** The keys of the [params] dictionary, in the order of line 205. *)
Definition catalog : list string :=
  ["an"; "aw"; "an2"; "aw2"; "an4"; "aw4"; "npae"; "ca"; "ia"; "ie"; "tf";
   "tfs"; "ref"; "dt"; "elt"; "ta1"; "te1"; "sa"; "se"; "sa2"; "se2"; "sta";
   "ste"; "sta2"; "ste2"]%string.

(** [{p: 0.0 for p in [...]}]. *)
Definition zero_params : gmap string R :=
  list_to_map ((fun p => (p, 0)) <$> catalog).

(** Body of the loop of lines 211-214. *)
Definition load_param (self : pointing) (params : gmap string R)
    (param : string) : result (gmap string R) :=
  if decide (param ∈ split (allowed_params self)) then
    i ← index (split (allowed_params self)) param;
    v ← getitem (value_params self) (Z.of_nat i);
    Ok (<[param := v]> params)
  else Ok params.

(** Lines 218-262, for the dictionary [params] as it stands after line 216:
    the offsets [azd] and [eld], and the corrected angles. *)
Definition corrections (params : gmap string R) (self : pointing)
  : result (list R * list R) :=
  let az_enc := az_enc self in
  let el_enc := el_enc self in
  let time := time self in
  let lat := lat self in
  (* Azimuth *)
  an ← item params "an";
  azd ← broadcast Rmult (Rmult (- an) <$> (sin <$> az_enc)) (sin <$> el_enc);
  aw ← item params "aw";
  t ← broadcast Rmult (Rmult aw <$> (cos <$> az_enc)) (sin <$> el_enc);
  azd ← inplace Rminus azd t;
  an2 ← item params "an2";
  t ← broadcast Rmult (Rmult (- an2) <$> (sin <$> (Rmult 2 <$> az_enc)))
        (sin <$> el_enc);
  azd ← inplace Rminus azd t;
  aw2 ← item params "aw2";
  t ← broadcast Rmult (Rmult aw2 <$> (cos <$> (Rmult 2 <$> az_enc)))
        (sin <$> el_enc);
  azd ← inplace Rminus azd t;
  an4 ← item params "an4";
  t ← broadcast Rmult (Rmult (- an4) <$> (sin <$> (Rmult 4 <$> az_enc)))
        (sin <$> el_enc);
  azd ← inplace Rminus azd t;
  aw4 ← item params "aw4";
  t ← broadcast Rmult (Rmult aw4 <$> (cos <$> (Rmult 4 <$> az_enc)))
        (sin <$> el_enc);
  azd ← inplace Rminus azd t;
  npae ← item params "npae";
  azd ← inplace Rplus azd (Rmult npae <$> (sin <$> el_enc));
  ca ← item params "ca";
  let azd := (fun x => x - ca) <$> azd in
  ia ← item params "ia";
  azd ← inplace Rplus azd (Rmult ia <$> (cos <$> el_enc));
  dt ← item params "dt";
  t ← broadcast Rmult ((fun x => x * cos lat) <$> (cos <$> az_enc))
        (tan <$> el_enc);
  azd ← inplace Rplus azd (Rmult dt <$> (Rplus (- sin lat) <$> t));
  (* Elevation *)
  an ← item params "an";
  let eld := Rmult an <$> (cos <$> az_enc) in
  aw ← item params "aw";
  eld ← inplace Rminus eld (Rmult aw <$> (sin <$> az_enc));
  an2 ← item params "an2";
  eld ← inplace Rminus eld (Rmult an2 <$> (cos <$> (Rmult 2 <$> az_enc)));
  aw2 ← item params "aw2";
  eld ← inplace Rminus eld (Rmult aw2 <$> (sin <$> (Rmult 2 <$> az_enc)));
  an4 ← item params "an4";
  eld ← inplace Rminus eld (Rmult an4 <$> (cos <$> (Rmult 4 <$> az_enc)));
  aw4 ← item params "aw4";
  eld ← inplace Rminus eld (Rmult aw4 <$> (sin <$> (Rmult 4 <$> az_enc)));
  ie ← item params "ie";
  let eld := (fun x => x - ie) <$> eld in
  tf ← item params "tf";
  eld ← inplace Rplus eld (Rmult tf <$> (cos <$> el_enc));
  tfs ← item params "tfs";
  eld ← inplace Rplus eld (Rmult tfs <$> (sin <$> el_enc));
  ref ← item params "ref";
  eld ← inplace Rminus eld (Rdiv ref <$> (tan <$> el_enc));
  dt ← item params "dt";
  eld ← inplace Rplus eld (Rmult (- dt * cos lat) <$> (sin <$> az_enc));
  elt ← item params "elt";
  tmin ← np_min time;
  eld ← inplace Rplus eld (Rmult elt <$> ((fun x => x - tmin) <$> time));
  (* Convert back in radian and apply to the encoder values. *)
  let azd := (fun x => x * (PI / (180.0 * 60))) <$> azd in
  let eld := (fun x => x * (PI / (180.0 * 60))) <$> eld in
  azd ← inplace Rdiv azd (cos <$> el_enc);
  az ← broadcast Rminus az_enc azd;
  el ← broadcast Rminus el_enc eld;
  Ok (az, el).

(** [apply_pointing_model(self)], lines 196-262. *)
Definition apply_pointing_model (self : pointing) : result (list R * list R) :=
  if decide (length (value_params self) = length (split (allowed_params self)))
  then
    params ← for_in catalog (load_param self) zero_params;
    dt ← item params "dt";
    let params := <["dt" := dt * sec2deg]> params in
    corrections params self
  else Raise AssertionError.

(** *** The correction formulas, as the specification writes them *)

(** The terms with a correction formula, and the catalog names without. *)
Definition implemented : list string :=
  ["an"; "aw"; "an2"; "aw2"; "an4"; "aw4"; "npae"; "ca"; "ia"; "ie"; "tf";
   "tfs"; "ref"; "dt"; "elt"]%string.


(** Value of the term [p]: the value at the position of [p] in the name
    list, 0 for a term that is not supplied. *)
Definition supplied (names : list string) (values : list R) (p : string) : R :=
  match list_find (eq p) names with
  | Some (i, _) => default 0 (values !! i)
  | None => 0
  end.

Section Formulas.

(** [P] gives the value of each term, [dt] is the timing term in degrees,
    [tmin] the earliest time of the scan. *)
Variable P : string -> R.
Variables dt lat tmin : R.

Definition azd (az el : R) : R :=
  - P "an" * sin az * sin el - P "aw" * cos az * sin el
  + P "an2" * sin (2 * az) * sin el - P "aw2" * cos (2 * az) * sin el
  + P "an4" * sin (4 * az) * sin el - P "aw4" * cos (4 * az) * sin el
  + P "npae" * sin el - P "ca" + P "ia" * cos el
  + dt * (- sin lat + cos az * cos lat * tan el).

Definition eld (az el t : R) : R :=
  P "an" * cos az - P "aw" * sin az
  - P "an2" * cos (2 * az) - P "aw2" * sin (2 * az)
  - P "an4" * cos (4 * az) - P "aw4" * sin (4 * az) - P "ie"
  + P "tf" * cos el + P "tfs" * sin el - P "ref" / tan el
  - dt * cos lat * sin az + P "elt" * (t - tmin).

Definition arcmin2rad : R := PI / (180 * 60).

Definition az_corrected (s : R * R * R) : R :=
  let '(az, el, _) := s in az - azd az el * arcmin2rad / cos el.

Definition el_corrected (s : R * R * R) : R :=
  let '(az, el, t) := s in el - eld az el t * arcmin2rad.

End Formulas.

(** The samples of a scan: encoder azimuth, elevation and time, index by
    index. *)
Definition samples (self : pointing) : list (R * R * R) :=
  zip (zip (az_enc self) (el_enc self)) (time self).

(** [m] is the least element of [l]. *)
Definition minimum (m : R) (l : list R) : Prop :=
  m ∈ l /\ Forall (Rle m) l.

(** The encoder arrays have one common, non-zero length. *)
Definition well_shaped (self : pointing) : Prop :=
  length (el_enc self) = length (az_enc self) /\
  length (time self) = length (az_enc self) /\
  az_enc self <> [].

(** [self] with another list of values. *)
Definition with_values (self : pointing) (values : list R) : pointing :=
  {| az_enc := az_enc self; el_enc := el_enc self; time := time self;
     value_params := values; allowed_params := allowed_params self;
     lat := lat self |}.

(** *** Lemmas on the primitives *)

(** Decide a closed statement on term names by evaluation. *)
Ltac by_names := apply (bool_decide_unpack _); vm_compute; exact I.

Lemma broadcast_fmap {A} (op : R -> R -> R) (g h : A -> R) (l : list A) :
  broadcast op (g <$> l) (h <$> l) = Ok ((fun s => op (g s) (h s)) <$> l).
Proof.
  unfold broadcast. rewrite decide_True by by rewrite !length_fmap.
  by rewrite zip_with_fmap_l, zip_with_fmap_r, zip_with_diag.
Qed.

Lemma inplace_fmap {A} (op : R -> R -> R) (g h : A -> R) (l : list A) :
  inplace op (g <$> l) (h <$> l) = Ok ((fun s => op (g s) (h s)) <$> l).
Proof.
  unfold inplace. rewrite decide_True by by rewrite !length_fmap.
  by rewrite zip_with_fmap_l, zip_with_fmap_r, zip_with_diag.
Qed.

Lemma foldl_Rmin_minimum (l : list R) (x : R) :
  (foldl Rmin x l = x \/ foldl Rmin x l ∈ l) /\
  foldl Rmin x l <= x /\ Forall (Rle (foldl Rmin x l)) l.
Proof.
  revert x. induction l as [|y l IH]; intros x; simpl.
  - split; [by left|]. split; [lra|constructor].
  - destruct (IH (Rmin x y)) as (Hin & Hle & Hall).
    pose proof (Rmin_l x y). pose proof (Rmin_r x y).
    split; [|split; [lra|constructor; [lra|done]]].
    destruct Hin as [Heq|Hin]; [|right; by right].
    rewrite Heq. unfold Rmin. destruct (Rle_dec x y); [by left|right; by left].
Qed.

Lemma np_min_minimum (l : list R) :
  l <> [] -> exists m, np_min l = Ok m /\ minimum m l.
Proof.
  destruct l as [|x l]; [done|]. intros _. eexists. split; [done|].
  destruct (foldl_Rmin_minimum l x) as (Hin & Hle & Hall). split.
  - destruct Hin as [->|Hin]; [by left|by right].
  - by constructor.
Qed.

Lemma samples_columns (self : pointing) :
  length (el_enc self) = length (az_enc self) ->
  length (time self) = length (az_enc self) ->
  az_enc self = (fun s => s.1.1) <$> samples self /\
  el_enc self = (fun s => s.1.2) <$> samples self /\
  time self = snd <$> samples self.
Proof.
  intros Hel Htime. unfold samples.
  assert (length (zip (az_enc self) (el_enc self)) = length (az_enc self))
    as Hzip by (rewrite length_zip; lia).
  split; [|split].
  - transitivity ((zip (zip (az_enc self) (el_enc self)) (time self)).*1.*1).
    + rewrite !fst_zip; [done|lia|lia].
    + by rewrite <- list_fmap_compose.
  - transitivity ((zip (zip (az_enc self) (el_enc self)) (time self)).*1.*2).
    + rewrite fst_zip, snd_zip; [done|lia|lia].
    + by rewrite <- list_fmap_compose.
  - rewrite snd_zip; [done|lia].
Qed.

(** *** The corrections follow the formulas *)

(** One statement of the method: rewrite the array operation at the head of
    the computation into a single map over the samples, and run the bind. *)
Ltac array_step :=
  first [ rewrite broadcast_fmap
        | rewrite inplace_fmap
        | rewrite <- list_fmap_compose ];
  cbn [mbind result_bind].

Lemma corrections_samples (d : gmap string R) (P : string -> R)
    (dt tmin lat0 : R) (l : list (R * R * R)) values names :
  (forall k, k ∈ implemented -> k <> "dt"%string -> d !! k = Some (P k)) ->
  d !! "dt"%string = Some dt ->
  np_min (snd <$> l) = Ok tmin ->
  corrections d {| az_enc := (fun s => s.1.1) <$> l;
                   el_enc := (fun s => s.1.2) <$> l;
                   time := snd <$> l;
                   value_params := values; allowed_params := names;
                   lat := lat0 |}
  = Ok (az_corrected P dt lat0 <$> l, el_corrected P dt lat0 tmin <$> l).
Proof.
  intros Hd Hdt Hmin. unfold corrections, item. cbn [az_enc el_enc time lat].
  rewrite Hdt, Hmin.
  rewrite !Hd by first [by intros [=] | by_names].
  cbn [mbind result_bind].
  repeat array_step.
  f_equal. f_equal; apply list_fmap_ext; intros _ [[az el] t] _.
  - unfold az_corrected, azd, arcmin2rad, compose, Rdiv; simpl.
    replace 180.0 with 180 by lra. ring.
  - unfold el_corrected, eld, arcmin2rad, compose, Rdiv; simpl.
    replace 180.0 with 180 by lra. ring.
Qed.

(** *** The dictionary after the loop *)

Lemma zero_params_catalog (p : string) :
  p ∈ catalog -> zero_params !! p = Some 0.
Proof.
  intros Hp. unfold catalog in Hp.
  repeat (apply elem_of_cons in Hp as [->|Hp]; [by vm_compute|]).
  by apply elem_of_nil in Hp.
Qed.

Lemma supplied_absent names values (p : string) :
  p ∉ names -> supplied names values p = 0.
Proof.
  intros Hp. unfold supplied.
  destruct (list_find (eq p) names) as [[i y]|] eqn:Hfind; [|done].
  apply list_find_Some in Hfind as (Hi & <- & _).
  destruct Hp. eapply list_elem_of_lookup_2, Hi.
Qed.

Lemma load_param_ok (self : pointing) (d : gmap string R) (k : string) :
  length (value_params self) = length (split (allowed_params self)) ->
  load_param self d k =
  Ok (if decide (k ∈ split (allowed_params self))
      then <[k := supplied (split (allowed_params self)) (value_params self) k]> d
      else d).
Proof.
  intros Hlen. unfold load_param, index, supplied.
  destruct (decide (k ∈ _)) as [Hk|]; [|done].
  destruct (list_find_elem_of (eq k) _ k Hk eq_refl) as [[i y] Hfind].
  rewrite Hfind. cbn [mbind result_bind]. rewrite getitem_nat.
  apply list_find_Some in Hfind as (Hi & _ & _).
  apply lookup_lt_Some in Hi. rewrite <- Hlen in Hi.
  apply lookup_lt_is_Some in Hi as [v Hv]. by rewrite Hv.
Qed.

Lemma for_in_load (self : pointing) (ks : list string) (d : gmap string R) :
  length (value_params self) = length (split (allowed_params self)) ->
  exists d', for_in ks (load_param self) d = Ok d' /\
    forall p, d' !! p =
      if decide (p ∈ ks /\ p ∈ split (allowed_params self))
      then Some (supplied (split (allowed_params self)) (value_params self) p)
      else d !! p.
Proof.
  intros Hlen. revert d. induction ks as [|k ks IH]; intros d.
  - exists d. split; [done|]. intros p.
    rewrite decide_False; [done|]. intros [Hp _]. by apply elem_of_nil in Hp.
  - cbn [for_in]. rewrite load_param_ok by done. cbn [mbind result_bind].
    destruct (IH (if decide (k ∈ split (allowed_params self))
                  then <[k := supplied (split (allowed_params self))
                                  (value_params self) k]> d
                  else d)) as (d' & -> & Hd').
    exists d'. split; [done|]. intros p. rewrite Hd'.
    destruct (decide (p ∈ ks /\ _)) as [[Hks Hn]|Hno].
    + rewrite decide_True; [done|]. split; [by right|done].
    + destruct (decide (p = k)) as [->|Hne].
      * destruct (decide (k ∈ split _)) as [Hk|Hk].
        -- rewrite decide_True by (split; [by left|done]).
           by rewrite lookup_insert_eq.
        -- rewrite decide_False; [done|]. by intros [_ ?].
      * rewrite (decide_False (P := p ∈ k :: ks /\ _)).
        -- destruct (decide (k ∈ split _)); [|done].
           by rewrite lookup_insert_ne.
        -- intros [Hin Hn]. apply elem_of_cons in Hin as [?|Hin]; [done|].
           by apply Hno.
Qed.

(** After line 216 the dictionary holds, for every catalog term, the value
    supplied for it, the timing term converted to degrees. *)
Lemma apply_pointing_model_dict (self : pointing) :
  length (value_params self) = length (split (allowed_params self)) ->
  let P := supplied (split (allowed_params self)) (value_params self) in
  exists d : gmap string R,
    (forall k, k ∈ catalog -> k <> "dt"%string -> d !! k = Some (P k)) /\
    d !! "dt"%string = Some (P "dt"%string * sec2deg) /\
    apply_pointing_model self = corrections d self.
Proof.
  intros Hlen P. unfold apply_pointing_model. rewrite decide_True by done.
  destruct (for_in_load self catalog zero_params Hlen) as (d & -> & Hd).
  assert (forall k, k ∈ catalog -> d !! k = Some (P k)) as Hcat.
  { intros k Hk. rewrite Hd. destruct (decide _) as [|Hno]; [done|].
    rewrite zero_params_catalog by done. unfold P.
    rewrite supplied_absent; [done|]. intros Hn. by apply Hno. }
  cbn [mbind result_bind]. unfold item at 1.
  rewrite Hcat by by_names. cbn [mbind result_bind].
  eexists. split; [|split; [|done]].
  - intros k Hk Hne. by rewrite lookup_insert_ne, Hcat.
  - by rewrite lookup_insert_eq.
Qed.

Lemma implemented_catalog (k : string) : k ∈ implemented -> k ∈ catalog.
Proof.
  intros Hk. unfold implemented in Hk.
  repeat (apply elem_of_cons in Hk as [->|Hk]; [by_names|]).
  by apply elem_of_nil in Hk.
Qed.


(** The corrections read the dictionary at the implemented terms only. *)
Lemma corrections_ext (d1 d2 : gmap string R) (self : pointing) :
  (forall k, k ∈ implemented -> d1 !! k = d2 !! k) ->
  corrections d1 self = corrections d2 self.
Proof.
  intros Hagree. unfold corrections, item.
  repeat match goal with
         | |- context [d1 !! ?k] =>
             rewrite (Hagree k) by by_names
         end.
  reflexivity.
Qed.

(** On a well-shaped scan the method returns the formulas' values. *)
Lemma apply_pointing_model_samples (self : pointing) :
  length (value_params self) = length (split (allowed_params self)) ->
  well_shaped self ->
  let P := supplied (split (allowed_params self)) (value_params self) in
  exists tmin, minimum tmin (time self) /\
    apply_pointing_model self =
    Ok (az_corrected P (P "dt"%string * sec2deg) (lat self) <$> samples self,
        el_corrected P (P "dt"%string * sec2deg) (lat self) tmin
          <$> samples self).
Proof.
  intros Hlen (Hel & Htime & Hne) P.
  destruct (apply_pointing_model_dict self Hlen) as (d & Hd & Hdt & ->).
  destruct (np_min_minimum (time self)) as (tmin & Hmin & Hleast).
  { intros Ht. rewrite Ht in Htime. by destruct (az_enc self). }
  exists tmin. split; [done|].
  destruct (samples_columns self Hel Htime) as (Haz & Hel' & Htime').
  rewrite Htime' in Hmin.
  rewrite <- (corrections_samples d P _ tmin (lat self) (samples self)
                (value_params self) (allowed_params self)); try done.
  - rewrite <- Haz, <- Hel', <- Htime'. by destruct self.
  - intros k Hk Hne'. apply Hd; [by apply implemented_catalog|done].
Qed.

(** Two value lists that agree wherever the name is an implemented term give
    the same result, error or not. *)
Lemma supplied_agree names (v1 v2 : list R) (k : string) :
  (forall i p, names !! i = Some p -> p = k -> v1 !! i = v2 !! i) ->
  supplied names v1 k = supplied names v2 k.
Proof.
  intros Hagree. unfold supplied.
  destruct (list_find (eq k) names) as [[i y]|] eqn:Hfind; [|done].
  apply list_find_Some in Hfind as (Hi & <- & _).
  by rewrite (Hagree i k).
Qed.



Lemma supplied_zero names (values : list R) (k : string) :
  Forall (fun v => v = 0) values -> supplied names values k = 0.
Proof.
  intros Hzero. unfold supplied.
  destruct (list_find (eq k) names) as [[i y]|]; [|done].
  destruct (values !! i) as [v|] eqn:Hv; [|done].
  rewrite Forall_forall in Hzero. apply Hzero.
  eapply list_elem_of_lookup_2, Hv.
Qed.

(** X6.  On an empty scan the minimum of the time array does not exist and
    the method fails with [ValueError], after the length check. *)
Lemma apply_pointing_model_empty (self : pointing) :
  length (value_params self) = length (split (allowed_params self)) ->
  az_enc self = [] -> el_enc self = [] -> time self = [] ->
  apply_pointing_model self = Raise ValueError.
Proof.
  intros Hlen Haz Hel Htime.
  destruct (apply_pointing_model_dict self Hlen) as (d & Hd & Hdt & ->).
  unfold corrections, item. rewrite Haz, Hel, Htime, Hdt.
  rewrite !Hd by first [by intros [=] | by_names].
  reflexivity.
Qed.

(** A scan of two samples, used to try the statements below. *)
Definition scan_ex (names : string) (values : list R) : pointing :=
  {| az_enc := [0; 1]; el_enc := [0.5; 0.5]; time := [56293; 56294];
     value_params := values; allowed_params := names; lat := -22 * d2r |}.

Lemma scan_ex_well_shaped names values : well_shaped (scan_ex names values).
Proof. by repeat split. Qed.

(** *** The claims on the pointing model *)

(** No encoder elevation is singular: the divisors [tan el] and [cos el]
    of lines 247 and 257 are not zero. *)
Definition regular_elevations (self : pointing) : Prop :=
  Forall (fun el => tan el <> 0 /\ cos el <> 0) (el_enc self).

Lemma scan_ex_regular names values : regular_elevations (scan_ex names values).
Proof.
  pose proof PI2_1.
  assert (0 < tan 0.5) by (apply tan_gt_0; lra).
  assert (0 < cos 0.5) by (apply cos_gt_0; lra).
  repeat constructor; simpl; lra.
Qed.

(** C1.  When the name and value lists have the same length, the encoder
    arrays have one non-zero length and no elevation is singular (the
    divisors [tan el] and [cos el] are not zero), [apply_pointing_model]
    returns, sample by sample, [az_enc - azd * (pi / (180 * 60)) / cos
    el_enc] and [el_enc - eld * (pi / (180 * 60))], where [azd] and [eld]
    are the formulas of the specification, taken at the supplied values of
    the terms (0 for a term that is not supplied), with [dt] multiplied by
    [360 / 86400] first and [tmin] the least entry of the time array.  The
    two arrays returned have the lengths of the encoder arrays. *)
Theorem apply_pointing_model_formulas (self : pointing) :
  length (value_params self) = length (split (allowed_params self)) ->
  well_shaped self ->
  regular_elevations self ->
  let P := supplied (split (allowed_params self)) (value_params self) in
  let dt := P "dt"%string * (360 / 86400) in
  exists tmin az el,
    minimum tmin (time self) /\
    apply_pointing_model self = Ok (az, el) /\
    az = az_corrected P dt (lat self) <$> samples self /\
    el = el_corrected P dt (lat self) tmin <$> samples self /\
    length az = length (az_enc self) /\
    length el = length (el_enc self).
Proof.
  intros Hlen Hshape _ P dt.
  destruct (apply_pointing_model_samples self Hlen Hshape) as (tmin & Hmin & Hrun).
  destruct Hshape as (Hel & Htime & _).
  destruct (samples_columns self Hel Htime) as (Haz & Hel' & _).
  exists tmin. do 2 eexists. split; [done|].
  assert (dt = supplied (split (allowed_params self)) (value_params self) "dt"
               * sec2deg) as ->
    by (unfold dt, P, sec2deg; lra).
  split; [exact Hrun|]. split; [done|]. split; [done|].
  rewrite !length_fmap. split.
  - by rewrite Haz at 1; rewrite length_fmap.
  - by rewrite Hel' at 1; rewrite length_fmap.
Qed.

Lemma apply_pointing_model_formulas_witness :
  let self := scan_ex "ia ie dt" [10; 8; 1] in
  let P := supplied (split (allowed_params self)) (value_params self) in
  let dt := P "dt"%string * (360 / 86400) in
  exists tmin az el,
    minimum tmin (time self) /\
    apply_pointing_model self = Ok (az, el) /\
    az = az_corrected P dt (lat self) <$> samples self /\
    el = el_corrected P dt (lat self) tmin <$> samples self /\
    length az = length (az_enc self) /\
    length el = length (el_enc self).
Proof.
  apply (apply_pointing_model_formulas (scan_ex "ia ie dt" [10; 8; 1])).
  - reflexivity.
  - apply scan_ex_well_shaped.
  - apply scan_ex_regular.
Defined.

(** C2.  With matching list lengths and well-shaped arrays whose elevations
    avoid 0 and pi/2, if every supplied value is zero then
    [apply_pointing_model] returns the encoder azimuth and elevation
    unchanged.  (Over the reals every term is a product with 0, so the
    proof does not have to use the condition on the elevations; in floating
    point it keeps [0 / tan el] away from 0/0.) *)
Theorem zero_parameters_identity (self : pointing) :
  length (value_params self) = length (split (allowed_params self)) ->
  well_shaped self ->
  Forall (fun v => v = 0) (value_params self) ->
  Forall (fun el => el <> 0 /\ el <> PI / 2) (el_enc self) ->
  apply_pointing_model self = Ok (az_enc self, el_enc self).
Proof.
  intros Hlen Hshape Hzero _.
  destruct (apply_pointing_model_samples self Hlen Hshape) as (tmin & _ & ->).
  destruct Hshape as (Hel & Htime & _).
  destruct (samples_columns self Hel Htime) as (Haz & Hel' & _).
  rewrite Haz at 1. rewrite Hel' at 1.
  do 2 f_equal; apply list_fmap_ext; intros _ [[az el] t] _.
  - unfold az_corrected, azd, Rdiv. rewrite !supplied_zero by done.
    simpl. ring.
  - unfold el_corrected, eld, Rdiv. rewrite !supplied_zero by done.
    simpl. ring.
Qed.

Lemma zero_parameters_identity_witness :
  apply_pointing_model (scan_ex "ia ie ca an aw" [0; 0; 0; 0; 0]) =
  Ok ([0; 1], [0.5; 0.5]).
Proof.
  apply (zero_parameters_identity (scan_ex "ia ie ca an aw" [0; 0; 0; 0; 0])).
  - reflexivity.
  - apply scan_ex_well_shaped.
  - by repeat constructor.
  - pose proof PI2_1. repeat constructor; simpl; lra.
Defined.

(** C3.  When the name list and the value list differ in length,
    [apply_pointing_model] raises [AssertionError]; it does so whatever the
    arrays are, also for arrays on which the numeric part itself would fail:
    the check comes first and nothing is returned. *)
Theorem length_mismatch_raises (self : pointing) :
  length (value_params self) <> length (split (allowed_params self)) ->
  apply_pointing_model self = Raise AssertionError.
Proof.
  intros Hlen. unfold apply_pointing_model. by rewrite decide_False.
Qed.

Lemma length_mismatch_raises_witness :
  apply_pointing_model
    {| az_enc := []; el_enc := [1]; time := [];
       value_params := [10; 8; 1]; allowed_params := "ia ie";
       lat := 0 |} = Raise AssertionError.
Proof.
  apply length_mismatch_raises. simpl. lia.
Defined.





(** *** Further properties of the pointing model *)

Lemma apply_pointing_model_empty_witness :
  apply_pointing_model
    {| az_enc := []; el_enc := []; time := [];
       value_params := [10; 8]; allowed_params := "ia ie";
       lat := 0 |} = Raise ValueError.
Proof. by apply apply_pointing_model_empty. Defined.

Lemma broadcast_mismatch (op : R -> R -> R) (a b : list R) :
  length a <> length b -> length a <> 1%nat -> length b <> 1%nat ->
  broadcast op a b = Raise ValueError.
Proof.
  intros Hab Ha Hb. unfold broadcast. rewrite decide_False by done.
  by destruct a as [|x [|x' a]], b as [|y [|y' b]].
Qed.

(** X7.  Encoder azimuth and elevation arrays of different lengths, neither
    of length 1, cannot be combined: the method raises [ValueError] at the
    first product of the two, once the length check has passed. *)
Theorem shape_mismatch_raises (self : pointing) :
  length (value_params self) = length (split (allowed_params self)) ->
  length (az_enc self) <> length (el_enc self) ->
  length (az_enc self) <> 1%nat ->
  length (el_enc self) <> 1%nat ->
  apply_pointing_model self = Raise ValueError.
Proof.
  intros Hlen Hne Haz Hel.
  destruct (apply_pointing_model_dict self Hlen) as (d & Hd & Hdt & ->).
  unfold corrections, item. rewrite Hdt.
  rewrite !Hd by first [by intros [=] | by_names].
  cbn [mbind result_bind].
  rewrite !broadcast_mismatch by by rewrite !length_fmap.
  reflexivity.
Qed.

Lemma shape_mismatch_raises_witness :
  apply_pointing_model
    {| az_enc := [0; 1; 2]; el_enc := [0.5; 0.5]; time := [1; 2; 3];
       value_params := [10; 8]; allowed_params := "ia ie";
       lat := 0 |} = Raise ValueError.
Proof.
  apply shape_mismatch_raises; simpl; first [reflexivity | lia].
Defined.

(** The method reads the arrays and the latitude of the object, and the
    names and values only through the dictionary. *)
Lemma corrections_arrays (d : gmap string R) (self1 self2 : pointing) :
  az_enc self1 = az_enc self2 -> el_enc self1 = el_enc self2 ->
  time self1 = time self2 -> lat self1 = lat self2 ->
  corrections d self1 = corrections d self2.
Proof. unfold corrections. by intros -> -> -> ->. Qed.

Lemma apply_pointing_model_ext (self1 self2 : pointing) :
  az_enc self1 = az_enc self2 -> el_enc self1 = el_enc self2 ->
  time self1 = time self2 -> lat self1 = lat self2 ->
  (length (value_params self1) = length (split (allowed_params self1)) <->
   length (value_params self2) = length (split (allowed_params self2))) ->
  (forall k, k ∈ implemented ->
     supplied (split (allowed_params self1)) (value_params self1) k =
     supplied (split (allowed_params self2)) (value_params self2) k) ->
  apply_pointing_model self1 = apply_pointing_model self2.
Proof.
  intros Haz Hel Htime Hlat Hlen Hsup.
  destruct (decide (length (value_params self1) =
                    length (split (allowed_params self1)))) as [Hlen1|Hlen1].
  - destruct (apply_pointing_model_dict self1 Hlen1)
      as (d1 & Hd1 & Hdt1 & ->).
    destruct (apply_pointing_model_dict self2 (proj1 Hlen Hlen1))
      as (d2 & Hd2 & Hdt2 & ->).
    rewrite <- (corrections_arrays d2 self1 self2) by done.
    apply corrections_ext. intros k Hk.
    destruct (decide (k = "dt"%string)) as [->|Hne].
    + by rewrite Hdt1, Hdt2, Hsup.
    + rewrite Hd1, Hd2, Hsup; auto using implemented_catalog.
  - unfold apply_pointing_model. rewrite !decide_False; [done| |done].
    by rewrite <- Hlen.
Qed.

(** X8.  Of a name that occurs several times in the name list only the first
    occurrence counts: two value lists of one length that agree at the first
    occurrence of every name give the same result. *)
Theorem later_duplicates_ignored (self : pointing) (v1 v2 : list R) :
  length v1 = length v2 ->
  (forall i p, split (allowed_params self) !! i = Some p ->
               (forall j, (j < i)%nat ->
                          split (allowed_params self) !! j <> Some p) ->
               v1 !! i = v2 !! i) ->
  apply_pointing_model (with_values self v1) =
  apply_pointing_model (with_values self v2).
Proof.
  intros Hlen Hfirst. apply apply_pointing_model_ext; try done.
  - cbn [with_values value_params allowed_params]. by rewrite Hlen.
  - intros k _. cbn [with_values value_params allowed_params].
    unfold supplied.
    destruct (list_find (eq k) _) as [[i y]|] eqn:Hfind; [|done].
    apply list_find_Some in Hfind as (Hi & <- & Hbefore).
    rewrite (Hfirst i k); [done|done|].
    intros j Hj Hk. by eapply Hbefore.
Qed.

Lemma later_duplicates_ignored_witness :
  apply_pointing_model (with_values (scan_ex "ia ie ia" []) [1; 2; 3]) =
  apply_pointing_model (with_values (scan_ex "ia ie ia" []) [1; 2; 9]).
Proof.
  apply (later_duplicates_ignored (scan_ex "ia ie ia" []) [1; 2; 3] [1; 2; 9]).
  - reflexivity.
  - intros [|[|[|i]]] p Hi Hfirst; simpl in Hi; try discriminate;
      try reflexivity.
    injection Hi as <-. by destruct (Hfirst 0%nat ltac:(lia)).
Defined.

Lemma supplied_zip names (values : list R) (k : string) (v : R) :
  NoDup names ->
  (k, v) ∈ zip names values ->
  supplied names values k = v.
Proof.
  intros Hnodup Hin. apply list_elem_of_lookup in Hin as [i Hi].
  apply lookup_zip_Some in Hi as [Hk Hv]. unfold supplied.
  destruct (list_find (eq k) names) as [[j y]|] eqn:Hfind.
  - apply list_find_Some in Hfind as (Hj & <- & _).
    rewrite (NoDup_lookup _ _ _ _ Hnodup Hj Hk). by rewrite Hv.
  - apply list_find_None in Hfind. rewrite Forall_forall in Hfind.
    destruct (Hfind k); [|done]. by eapply list_elem_of_lookup_2.
Qed.

(** X9.  With distinct names, the order in which the terms are listed does
    not matter: two objects on the same scan whose (name, value) pairs are a
    permutation of one another give the same result. *)
Theorem term_order_irrelevant (self1 self2 : pointing) :
  az_enc self1 = az_enc self2 -> el_enc self1 = el_enc self2 ->
  time self1 = time self2 -> lat self1 = lat self2 ->
  length (value_params self1) = length (split (allowed_params self1)) ->
  length (value_params self2) = length (split (allowed_params self2)) ->
  NoDup (split (allowed_params self1)) ->
  zip (split (allowed_params self1)) (value_params self1) ≡ₚ
  zip (split (allowed_params self2)) (value_params self2) ->
  apply_pointing_model self1 = apply_pointing_model self2.
Proof.
  intros Haz Hel Htime Hlat Hlen1 Hlen2 Hnodup Hperm.
  apply apply_pointing_model_ext; try done.
  intros k _.
  assert (split (allowed_params self1) ≡ₚ split (allowed_params self2))
    as Hnames.
  { rewrite <- (fst_zip (split (allowed_params self1)) (value_params self1))
      by lia.
    rewrite <- (fst_zip (split (allowed_params self2)) (value_params self2))
      by lia.
    by rewrite Hperm. }
  destruct (decide (k ∈ split (allowed_params self1))) as [Hk|Hk].
  - apply list_elem_of_lookup in Hk as [i Hi].
    destruct (lookup_lt_is_Some_2 (value_params self1) i) as [v Hv].
    { rewrite Hlen1. by eapply lookup_lt_Some. }
    assert ((k, v) ∈ zip (split (allowed_params self1)) (value_params self1))
      as Hin.
    { eapply list_elem_of_lookup_2. by apply lookup_zip_Some. }
    rewrite (supplied_zip _ _ k v Hnodup Hin).
    symmetry. apply supplied_zip; [by rewrite <- Hnames|by rewrite <- Hperm].
  - rewrite !supplied_absent; [done| |done]. by rewrite <- Hnames.
Qed.

Lemma term_order_irrelevant_witness :
  apply_pointing_model (scan_ex "ia ie dt" [10; 8; 1]) =
  apply_pointing_model (scan_ex "dt ia ie" [1; 10; 8]).
Proof.
  apply term_order_irrelevant; try reflexivity.
  - apply (bool_decide_unpack _). by vm_compute.
  - change ([("ia", 10); ("ie", 8); ("dt", 1)]%string ≡ₚ
            [("dt", 1); ("ia", 10); ("ie", 8)]%string).
    symmetry.
    apply (Permutation_cons_append [("ia", 10); ("ie", 8)]%string).
Defined.

(** [self] with another time array, and with another latitude. *)
Definition with_time (self : pointing) (t : list R) : pointing :=
  {| az_enc := az_enc self; el_enc := el_enc self; time := t;
     value_params := value_params self;
     allowed_params := allowed_params self; lat := lat self |}.

Definition with_lat (self : pointing) (lat' : R) : pointing :=
  {| az_enc := az_enc self; el_enc := el_enc self; time := time self;
     value_params := value_params self;
     allowed_params := allowed_params self; lat := lat' |}.

Lemma minimum_unique (m1 m2 : R) (l : list R) :
  minimum m1 l -> minimum m2 l -> m1 = m2.
Proof.
  intros [Hin1 Hle1] [Hin2 Hle2]. rewrite Forall_forall in Hle1, Hle2.
  specialize (Hle1 _ Hin2). specialize (Hle2 _ Hin1). lra.
Qed.

Lemma minimum_shift (m c : R) (l : list R) :
  minimum m l -> minimum (m + c) ((fun t => t + c) <$> l).
Proof.
  intros [Hin Hle]. split.
  - by apply (list_elem_of_fmap_2 (fun t => t + c)).
  - apply Forall_fmap. eapply Forall_impl; [exact Hle|].
    intros t Ht. simpl. lra.
Qed.

Lemma zip_fmap_snd {A B C} (g : B -> C) (l : list A) (k : list B) :
  zip l (g <$> k) = (fun s => (s.1, g s.2)) <$> zip l k.
Proof.
  revert k. induction l as [|x l IH]; intros [|y k]; simpl; [done..|].
  by rewrite IH.
Qed.

(** X10.  Only time differences enter the correction: on a well-shaped scan,
    adding one constant to every entry of the time array leaves the result
    of [apply_pointing_model] unchanged. *)
Theorem time_shift_invariant (self : pointing) (c : R) :
  length (value_params self) = length (split (allowed_params self)) ->
  well_shaped self ->
  apply_pointing_model (with_time self ((fun t => t + c) <$> time self)) =
  apply_pointing_model self.
Proof.
  intros Hlen Hshape.
  destruct (apply_pointing_model_samples self Hlen Hshape)
    as (tmin & Hmin & ->).
  destruct (apply_pointing_model_samples
              (with_time self ((fun t => t + c) <$> time self)))
    as (tmin' & Hmin' & ->); [done| |].
  { destruct Hshape as (Hel & Htime & Hne). repeat split; try done.
    cbn [with_time time az_enc]. by rewrite length_fmap. }
  cbn [with_time time az_enc el_enc value_params allowed_params lat] in *.
  rewrite (minimum_unique _ _ _ Hmin' (minimum_shift _ c _ Hmin)).
  assert (samples (with_time self ((fun t => t + c) <$> time self)) =
          (fun s => (s.1, s.2 + c)) <$> samples self) as ->.
  { unfold samples. cbn [with_time time az_enc el_enc].
    apply (zip_fmap_snd (fun t => t + c)). }
  rewrite <- !list_fmap_compose.
  do 2 f_equal; apply list_fmap_ext; intros _ [[az el] t] _; simpl.
  - reflexivity.
  - unfold eld. ring.
Qed.

Lemma time_shift_invariant_witness :
  apply_pointing_model
    (with_time (scan_ex "ia ie elt" [10; 8; 3])
       ((fun t => t + 100) <$> time (scan_ex "ia ie elt" [10; 8; 3]))) =
  apply_pointing_model (scan_ex "ia ie elt" [10; 8; 3]).
Proof.
  apply (time_shift_invariant (scan_ex "ia ie elt" [10; 8; 3]) 100).
  - reflexivity.
  - apply scan_ex_well_shaped.
Defined.

(** X11.  The latitude enters through the timing term only: when the value
    supplied for [dt] is 0 (or [dt] is not supplied), a well-shaped scan
    gives the same result for every latitude. *)
Theorem latitude_only_with_dt (self : pointing) (lat' : R) :
  length (value_params self) = length (split (allowed_params self)) ->
  well_shaped self ->
  supplied (split (allowed_params self)) (value_params self) "dt" = 0 ->
  apply_pointing_model (with_lat self lat') = apply_pointing_model self.
Proof.
  intros Hlen Hshape Hdt.
  destruct (apply_pointing_model_samples self Hlen Hshape)
    as (tmin & Hmin & ->).
  destruct (apply_pointing_model_samples (with_lat self lat') Hlen Hshape)
    as (tmin' & Hmin' & ->).
  cbn [with_lat time az_enc el_enc value_params allowed_params lat] in *.
  rewrite (minimum_unique _ _ _ Hmin' Hmin), Hdt.
  change (samples (with_lat self lat')) with (samples self).
  do 2 f_equal; apply list_fmap_ext; intros _ [[az el] t] _; simpl.
  - unfold azd, Rdiv. ring.
  - unfold eld, Rdiv. ring.
Qed.

Lemma latitude_only_with_dt_witness :
  apply_pointing_model (with_lat (scan_ex "ia ie" [10; 8]) 1) =
  apply_pointing_model (scan_ex "ia ie" [10; 8]).
Proof.
  apply (latitude_only_with_dt (scan_ex "ia ie" [10; 8]) 1).
  - reflexivity.
  - apply scan_ex_well_shaped.
  - reflexivity.
Defined.

Definition elevation_only : list string :=
  ["ie"; "tf"; "tfs"; "ref"; "elt"]%string.

Definition azimuth_only : list string := ["npae"; "ca"; "ia"]%string.

(** X12.  On a well-shaped scan, changing the values of [ie, tf, tfs, ref,
    elt] only leaves the corrected azimuth as it is, and changing the
    values of [npae, ca, ia] only leaves the corrected elevation as it is:
    for three value lists of the length of the name list, the second
    differing from the first only at names of the first group and the third
    only at names of the second group, all three runs succeed, the first
    two with the same azimuths, the first and the third with the same
    elevations. *)
Theorem azimuth_elevation_terms (self : pointing) (v1 v2 v3 : list R) :
  length v1 = length (split (allowed_params self)) ->
  length v2 = length (split (allowed_params self)) ->
  length v3 = length (split (allowed_params self)) ->
  well_shaped self ->
  (forall i p, split (allowed_params self) !! i = Some p ->
               p ∉ elevation_only -> v1 !! i = v2 !! i) ->
  (forall i p, split (allowed_params self) !! i = Some p ->
               p ∉ azimuth_only -> v1 !! i = v3 !! i) ->
  exists az el az' el',
    apply_pointing_model (with_values self v1) = Ok (az, el) /\
    apply_pointing_model (with_values self v2) = Ok (az, el') /\
    apply_pointing_model (with_values self v3) = Ok (az', el).
Proof.
  intros Hlen1 Hlen2 Hlen3 Hshape Hele Hazi.
  destruct (apply_pointing_model_samples (with_values self v1) Hlen1 Hshape)
    as (tmin & Hmin & ->).
  destruct (apply_pointing_model_samples (with_values self v2) Hlen2 Hshape)
    as (tmin2 & Hmin2 & ->).
  destruct (apply_pointing_model_samples (with_values self v3) Hlen3 Hshape)
    as (tmin3 & Hmin3 & ->).
  cbn [with_values time az_enc el_enc value_params allowed_params lat] in *.
  rewrite (minimum_unique _ _ _ Hmin2 Hmin), (minimum_unique _ _ _ Hmin3 Hmin).
  change (samples (with_values self v1)) with (samples self).
  change (samples (with_values self v2)) with (samples self).
  change (samples (with_values self v3)) with (samples self).
  assert (forall (skip : list string) (v : list R) k,
            (forall i p, split (allowed_params self) !! i = Some p ->
                         p ∉ skip -> v1 !! i = v !! i) ->
            k ∉ skip ->
            supplied (split (allowed_params self)) v1 k =
            supplied (split (allowed_params self)) v k) as Hsup.
  { intros skip v k Hagree Hk. apply supplied_agree.
    intros i p Hi ->. by eapply Hagree. }
  do 4 eexists. split; [reflexivity|]. split; do 2 f_equal.
  - apply list_fmap_ext; intros _ [[az el] t] _; simpl. unfold azd.
    rewrite <- !(Hsup elevation_only v2) by (done || by_names). reflexivity.
  - apply list_fmap_ext; intros _ [[az el] t] _; simpl. unfold eld.
    rewrite <- !(Hsup azimuth_only v3) by (done || by_names). reflexivity.
Qed.

Lemma azimuth_elevation_terms_witness :
  exists az el az' el',
    apply_pointing_model (with_values (scan_ex "ia ie" []) [10; 8])
      = Ok (az, el) /\
    apply_pointing_model (with_values (scan_ex "ia ie" []) [10; 5])
      = Ok (az, el') /\
    apply_pointing_model (with_values (scan_ex "ia ie" []) [7; 8])
      = Ok (az', el).
Proof.
  apply (azimuth_elevation_terms (scan_ex "ia ie" [])
           [10; 8] [10; 5] [7; 8]).
  - reflexivity.
  - reflexivity.
  - reflexivity.
  - apply scan_ex_well_shaped.
  - intros [|[|i]] p Hi Hp; simpl in Hi; try discriminate; try reflexivity.
    injection Hi as <-. destruct Hp. by_names.
  - intros [|[|i]] p Hi Hp; simpl in Hi; try discriminate; try reflexivity.
    injection Hi as <-. destruct Hp. by_names.
Defined.

End Pointing.

(** ** Horizon to equatorial conversion ([Azel2Radec]) *)

Module Astrometry.

#[local] Open Scope R_scope.

Section Slalib.

(** The SLALIB routines called through [pyslalib]; they are not part of
    the repository and stay abstract.  [aoprms_t] is the
    observation-parameter block, [amprms_t] the mean-place block. *)
Variables aoprms_t amprms_t : Type.
Variable sla_aoppa :
  R -> R -> R -> R -> R -> R -> R -> R -> R -> R -> R -> R -> aoprms_t.
Variable sla_aoppat : R -> aoprms_t -> aoprms_t.
Variable sla_mappa : R -> R -> amprms_t.
Variable sla_oapqk : string -> R -> R -> aoprms_t -> R * R.
Variable sla_ampqk : R -> R -> amprms_t -> R * R.
Variable sla_mapqkz : R -> R -> amprms_t -> R * R.
Variable sla_aopqk : R -> R -> aoprms_t -> R * R * R * R * R.
Variable sla_dbear : R -> R -> R -> R -> R.

(** The attributes of an [Azel2Radec] object. *)
Record Azel2Radec : Type := {
  lon : R;
  lat : R;
  height : R;
  pressure : R;
  temp : R;
  humidity : R;
  mjd : R;
  epequi : R;
  ut1utc : R;
  aoprms : aoprms_t
}.

(** [self.aoprms = v]. *)
Definition set_aoprms (self : Azel2Radec) (v : aoprms_t) : Azel2Radec :=
  {| lon := lon self; lat := lat self; height := height self;
     pressure := pressure self; temp := temp self;
     humidity := humidity self; mjd := mjd self; epequi := epequi self;
     ut1utc := ut1utc self; aoprms := v |}.

(** The block [updateaoprms] computes from the attributes set so far. *)
Definition aoppa_of (mjd ut1utc lon lat height temp pressure humidity : R)
  : aoprms_t :=
  let xpm := 0.0 in
  let ypm := 0.0 in
  let wavelength := (299792458.0 / 150.0e9) * 1e6 in
  let lapserate := 0.0065 in
  sla_aoppa mjd ut1utc lon lat height xpm ypm temp pressure humidity
    wavelength lapserate.

Definition updateaoprms (self : Azel2Radec) (mjd : R) : Azel2Radec :=
  set_aoprms self
    (aoppa_of mjd (ut1utc self) (lon self) (lat self) (height self)
       (temp self) (pressure self) (humidity self)).

(** [Azel2Radec(mjd, ut1utc, lon, lat, height, pressure, temp, humidity,
    epequi)]. *)
Definition init (mjd ut1utc lon lat height pressure temp humidity epequi : R)
  : Azel2Radec :=
  let lon := (360 - lon) * Pointing.d2r in
  let lat := lat * Pointing.d2r in
  {| lon := lon; lat := lat; height := height; pressure := pressure;
     temp := temp; humidity := humidity; mjd := mjd; epequi := epequi;
     ut1utc := ut1utc;
     aoprms := aoppa_of mjd ut1utc lon lat height temp pressure humidity |}.

(** [azel2radecpa(self, mjd, az, el)]: the object after the call and the
    triple returned. *)
Definition azel2radecpa (self : Azel2Radec) (mjd az el : R)
  : Azel2Radec * (R * R * R) :=
  let zd := PI / 2 - el in
  let amprms := sla_mappa (epequi self) mjd in
  let self := set_aoprms self (sla_aoppat mjd (aoprms self)) in
  let '(ra_app1, dec_app1) := sla_oapqk "a" az (zd + 1e-8) (aoprms self) in
  let '(ra1, dec1) := sla_ampqk ra_app1 dec_app1 amprms in
  let '(ra_app2, dec_app2) := sla_oapqk "a" az (zd - 1e-8) (aoprms self) in
  let '(ra2, dec2) := sla_ampqk ra_app2 dec_app2 amprms in
  let pa := sla_dbear ra1 dec1 ra2 dec2 in
  let ra := 0.5 * (ra1 + ra2) in
  let dec := 0.5 * (dec1 + dec2) in
  (self, (ra, dec, pa)).

(** [radec2azel(self, mjd, ra, dec)]. *)
Definition radec2azel (self : Azel2Radec) (mjd ra dec : R)
  : Azel2Radec * (R * R) :=
  let amprms := sla_mappa (epequi self) mjd in
  let self := set_aoprms self (sla_aoppat mjd (aoprms self)) in
  let '(ra_app, dec_app) := sla_mapqkz ra dec amprms in
  let '(az, zd, _, _, _) := sla_aopqk ra_app dec_app (aoprms self) in
  let el := PI / 2 - zd in
  (self, (az, el)).

(** *** The forward conversion, as the specification describes it *)

(** Observed to apparent, then apparent to mean, at zenith distance [zd],
    with the observation block [obs] and the mean-place block [mean]. *)
Definition reduce (obs : aoprms_t) (mean : amprms_t) (az zd : R) : R * R :=
  let app := sla_oapqk "a" az zd obs in
  sla_ampqk app.1 app.2 mean.

Definition midpoint (a b : R) : R := (a + b) / 2.

Definition forward (self : Azel2Radec) (mjd az el : R)
  : Azel2Radec * (R * R * R) :=
  let zd := PI / 2 - el in
  let mean := sla_mappa (epequi self) mjd in
  let obs := sla_aoppat mjd (aoprms self) in
  let plus := reduce obs mean az (zd + 1 / 10 ^ 8) in
  let minus := reduce obs mean az (zd - 1 / 10 ^ 8) in
  (set_aoprms self obs,
   (midpoint plus.1 minus.1, midpoint plus.2 minus.2,
    sla_dbear plus.1 plus.2 minus.1 minus.2)).

(** C5.  [azel2radecpa] takes the zenith distance [pi/2 - el], builds the
    mean-place block from the equinox and the query epoch alone, replaces
    the observation block of the object by its advance to the query epoch,
    reduces observed to apparent to mean at [zd + 1e-8] and [zd - 1e-8]
    with these two blocks, and returns the midpoints of the two right
    ascensions and of the two declinations, with the bearing from the
    first reduced point to the second as parallactic angle. *)
Theorem azel2radecpa_forward (self : Azel2Radec) (mjd az el : R) :
  azel2radecpa self mjd az el = forward self mjd az el.
Proof.
  unfold azel2radecpa, forward, reduce, midpoint.
  cbn [aoprms set_aoprms].
  replace 1e-8 with (1 / 10 ^ 8) by lra.
  destruct (sla_oapqk "a" az (PI / 2 - el + 1 / 10 ^ 8) _)
    as [ra_app1 dec_app1].
  destruct (sla_oapqk "a" az (PI / 2 - el - 1 / 10 ^ 8) _)
    as [ra_app2 dec_app2].
  cbn [fst snd].
  destruct (sla_ampqk ra_app1 dec_app1 _) as [ra1 dec1].
  destruct (sla_ampqk ra_app2 dec_app2 _) as [ra2 dec2].
  cbn [fst snd]. repeat f_equal; lra.
Qed.

(** *** Further properties of the converter *)

(** X21.  Both conversions advance the observation block of the object and
    touch nothing else, and they do so from wherever the previous call left
    it: after [azel2radecpa] at [mjd1] followed by [radec2azel] at [mjd2]
    the object is the initial one with its block advanced to [mjd1] and
    then to [mjd2]. *)
Theorem conversions_advance_block (self : Azel2Radec)
    (mjd1 az el mjd2 ra dec : R) :
  (radec2azel (azel2radecpa self mjd1 az el).1 mjd2 ra dec).1 =
  set_aoprms self (sla_aoppat mjd2 (sla_aoppat mjd1 (aoprms self))).
Proof.
  unfold radec2azel, azel2radecpa. cbn [aoprms set_aoprms].
  repeat match goal with
         | |- context [let '(_, _) := ?p in _] => destruct p
         end.
  reflexivity.
Qed.

End Slalib.

End Astrometry.


(** ** Input sky maps ([HealpixFitsMap]) *)

Module HealpixFitsMap.

#[local] Open Scope R_scope.

(** A map file on disk, as the list of its fields (columns of pixels).
    [hp.read_map(filename, field)] returns the fields asked for; it fails
    when the file lacks one of them and refuses a field without pixels. *)
Definition read_map (file : list (list R)) (field : nat) : result (list R) :=
  m ← getitem file (Z.of_nat field);
  match m with
  | [] => Raise ValueError
  | _ :: _ => Ok m
  end.

(** [hp.npix2nside(npix)]: the resolution [nside] with [npix = 12 * nside^2],
    [ValueError] when there is none. *)
Definition npix2nside (npix : nat) : result nat :=
  let nside := Nat.sqrt (npix / 12) in
  if decide (12 * nside * nside = npix)%nat then Ok nside
  else Raise ValueError.

(** The attributes of a [HealpixFitsMap] object; [None] is Python's [None]. *)
Record HealpixFitsMap : Type := {
  input_filename : list (list R);
  do_pol : bool;
  verbose : bool;
  no_ileak : bool;
  no_quleak : bool;
  nside : option nat;
  I : option (list R);
  Q : option (list R);
  U : option (list R)
}.

Definition set_maps (self : HealpixFitsMap) (nside' : option nat)
    (I' Q' U' : option (list R)) : HealpixFitsMap :=
  {| input_filename := input_filename self; do_pol := do_pol self;
     verbose := verbose self; no_ileak := no_ileak self;
     no_quleak := no_quleak self;
     nside := nside'; I := I'; Q := Q'; U := U' |}.

(** [load_healpix_fits_map(self, force)]; the message printed when the map
    is already in memory is left out. *)
Definition load_healpix_fits_map (self : HealpixFitsMap) (force : bool)
  : result HealpixFitsMap :=
  if decide (nside self = None \/ force = true) then
    self ←
      (if do_pol self then
         i ← read_map (input_filename self) 0;
         q ← read_map (input_filename self) 1;
         u ← read_map (input_filename self) 2;
         Ok (set_maps self (nside self) (Some i) (Some q) (Some u))
       else
         i ← read_map (input_filename self) 0;
         Ok (set_maps self (nside self) (Some i) (Q self) (U self)));
    match I self with
    | Some i =>
        n ← npix2nside (length i);
        Ok (set_maps self (Some n) (I self) (Q self) (U self))
    | None => Raise TypeError
    end
  else Ok self.

(** [a[:] = 0.0] on an attribute that holds an array; on [None] the
    assignment fails. *)
Definition fill_zero (a : option (list R)) : result (option (list R)) :=
  match a with
  | Some l => Ok (Some ((fun _ => 0) <$> l))
  | None => Raise TypeError
  end.

(** [set_leakage_to_zero(self)]. *)
Definition set_leakage_to_zero (self : HealpixFitsMap)
  : result HealpixFitsMap :=
  self ←
    (if no_ileak self then
       i ← fill_zero (I self);
       Ok (set_maps self (nside self) i (Q self) (U self))
     else Ok self);
  if no_quleak self then
    self ←
      (if decide (Q self <> None) then
         q ← fill_zero (Q self);
         Ok (set_maps self (nside self) (I self) q (U self))
       else Ok self);
    if decide (U self <> None) then
      u ← fill_zero (U self);
      Ok (set_maps self (nside self) (I self) (Q self) u)
    else Ok self
  else Ok self.

(** [HealpixFitsMap(input_filename, do_pol, verbose, no_ileak, no_quleak)]. *)
Definition init (input_filename : list (list R))
    (do_pol verbose no_ileak no_quleak : bool) : result HealpixFitsMap :=
  let self :=
    {| input_filename := input_filename; do_pol := do_pol;
       verbose := verbose; no_ileak := no_ileak; no_quleak := no_quleak;
       nside := None; I := None; Q := None; U := None |} in
  self ← load_healpix_fits_map self false;
  set_leakage_to_zero self.

(** An array is present and holds zeros only. *)
Definition all_zeros (a : option (list R)) : Prop :=
  exists l, a = Some l /\ Forall (fun x => x = 0) l.

(** A map of resolution 1 (12 pixels) with three fields. *)
Definition map_ex : list (list R) :=
  [[1; 2; 3; 4; 5; 6; 7; 8; 9; 10; 11; 12];
   [0.1; 0.2; 0.3; 0.4; 0.5; 0.6; 0.7; 0.8; 0.9; 1.0; 1.1; 1.2];
   [-1; -2; -3; -4; -5; -6; -7; -8; -9; -10; -11; -12]].

Example init_ex_nside :
  nside <$> (match init map_ex true false false false with
             | Ok self => Some self
             | Raise _ => None
             end) = Some (Some 1%nat).
Proof. reflexivity. Qed.

(** *** Leakage suppression *)

Lemma read_map_Ok (file : list (list R)) (field : nat) (m : list R) :
  read_map file field = Ok m <-> file !! field = Some m /\ m <> [].
Proof.
  unfold read_map. rewrite getitem_nat.
  destruct (file !! field) as [[|x m']|]; cbn; split.
  all: try done.
  - by intros [[= <-] ?].
  - by intros [= <-].
  - by intros [[= <-] _].
  - by intros [? _].
Qed.

Lemma all_zeros_fill (l : list R) : all_zeros (Some ((fun _ => 0) <$> l)).
Proof.
  exists ((fun _ => 0) <$> l). split; [done|].
  apply Forall_fmap, Forall_true. done.
Qed.

(** What a successful construction leaves in the object. *)
Lemma init_Ok file pol verb ileak quleak self :
  init file pol verb ileak quleak = Ok self ->
  exists i, file !! 0%nat = Some i /\
    I self = Some (if ileak then (fun _ => 0) <$> i else i) /\
    (if pol
     then exists q u, file !! 1%nat = Some q /\ file !! 2%nat = Some u /\
            Q self = Some (if quleak then (fun _ => 0) <$> q else q) /\
            U self = Some (if quleak then (fun _ => 0) <$> u else u)
     else Q self = None /\ U self = None).
Proof.
  unfold init, load_healpix_fits_map, set_leakage_to_zero.
  cbn -[npix2nside read_map].
  destruct (read_map file 0) as [i|] eqn:Hi; [|by destruct pol].
  apply read_map_Ok in Hi as [Hi _].
  destruct pol.
  - destruct (read_map file 1) as [q|] eqn:Hq; [|done].
    destruct (read_map file 2) as [u|] eqn:Hu; [|done].
    apply read_map_Ok in Hq as [Hq _]. apply read_map_Ok in Hu as [Hu _].
    cbn -[npix2nside]. destruct (npix2nside (length i)); [|done].
    destruct ileak, quleak; cbn; intros [= <-]; cbn; eauto 10.
  - cbn -[npix2nside]. destruct (npix2nside (length i)); [|done].
    destruct ileak, quleak; cbn; intros [= <-]; cbn; eauto 10.
Qed.

(** C8, as stated, fails without polarisation: built with [do_pol] unset and
    [no_quleak] set, the object has no [Q] and no [U] array at all. *)
Lemma no_quleak_without_pol :
  exists self, init map_ex false false false true = Ok self /\
    no_quleak self = true /\
    Q self = None /\ U self = None /\
    ~ all_zeros (Q self) /\ ~ all_zeros (U self).
Proof.
  eexists. split; [reflexivity|]. cbn.
  repeat split; intros (l & Hl & _); discriminate.
Qed.

(** C8, amended.  After a successful construction: with [no_ileak] set the
    [I] array holds zeros only, whatever the file holds; with [no_quleak]
    set and polarisation loaded ([do_pol]) the [Q] and [U] arrays hold zeros
    only; with [do_pol] unset [Q] and [U] stay [None]. *)
Theorem leakage_zeroed file pol verb ileak quleak self :
  init file pol verb ileak quleak = Ok self ->
  (ileak = true -> all_zeros (I self)) /\
  (quleak = true -> pol = true -> all_zeros (Q self) /\ all_zeros (U self)) /\
  (pol = false -> Q self = None /\ U self = None).
Proof.
  intros Hinit. destruct (init_Ok _ _ _ _ _ _ Hinit) as (i & _ & HI & Hpol).
  split; [|split].
  - intros ->. rewrite HI. apply all_zeros_fill.
  - intros -> ->. destruct Hpol as (q & u & _ & _ & -> & ->).
    split; apply all_zeros_fill.
  - by intros ->.
Qed.

Lemma leakage_zeroed_witness :
  exists self, init map_ex true false true true = Ok self /\
    all_zeros (I self) /\ all_zeros (Q self) /\ all_zeros (U self).
Proof.
  eexists. split; [reflexivity|].
  destruct (leakage_zeroed map_ex true false true true _ eq_refl)
    as (HI & HQU & _).
  split; [by apply HI|]. by apply HQU.
Defined.

(** *** Further properties of the map object *)

Lemma npix2nside_Ok (npix n : nat) :
  npix2nside npix = Ok n <-> npix = (12 * n * n)%nat.
Proof.
  unfold npix2nside. split.
  - destruct (decide _) as [Heq|]; [|done]. by intros [= <-].
  - intros ->.
    replace (12 * n * n)%nat with (n * n * 12)%nat by lia.
    rewrite Nat.div_mul by done. rewrite Nat.sqrt_square.
    rewrite decide_True by lia. done.
Qed.

(** X13.  The leakage flags never decide whether construction succeeds:
    when it succeeds for one setting of [no_ileak] and [no_quleak] it
    succeeds for every setting.  And when it succeeds, the file has a field
    0 of [12 * n * n] pixels with [n] at least 1 and, with [do_pol] set,
    also the fields 1 and 2. *)
Theorem init_success_conditions file pol verb ileak quleak self :
  init file pol verb ileak quleak = Ok self ->
  (forall ileak' quleak', is_Ok (init file pol verb ileak' quleak')) /\
  exists i n, file !! 0%nat = Some i /\ (1 <= n)%nat /\
    length i = (12 * n * n)%nat /\
    (if pol then is_Some (file !! 1%nat) /\ is_Some (file !! 2%nat)
     else True).
Proof.
  unfold init, load_healpix_fits_map, set_leakage_to_zero.
  cbn -[npix2nside read_map].
  destruct (read_map file 0) as [i|] eqn:Hi; [|by destruct pol].
  apply read_map_Ok in Hi as [Hi Hne].
  assert (forall n, length i = (12 * n * n)%nat -> (1 <= n)%nat) as Hpos.
  { intros [|n] Hlen; [|lia]. by destruct i. }
  destruct pol.
  - destruct (read_map file 1) as [q|] eqn:Hq; [|done].
    destruct (read_map file 2) as [u|] eqn:Hu; [|done].
    apply read_map_Ok in Hq as [Hq _]. apply read_map_Ok in Hu as [Hu _].
    cbn -[npix2nside].
    destruct (npix2nside (length i)) as [n|] eqn:Hn; [|done].
    apply npix2nside_Ok in Hn. intros _. split.
    + intros [] []; by eexists.
    + exists i, n. rewrite Hq, Hu. eauto 10.
  - cbn -[npix2nside].
    destruct (npix2nside (length i)) as [n|] eqn:Hn; [|done].
    apply npix2nside_Ok in Hn. intros _. split.
    + intros [] []; by eexists.
    + exists i, n. eauto 10.
Qed.

Lemma init_success_conditions_witness :
  exists self, init map_ex true false true false = Ok self /\
    (forall ileak' quleak', is_Ok (init map_ex true false ileak' quleak')) /\
    exists i n, map_ex !! 0%nat = Some i /\ (1 <= n)%nat /\
      length i = (12 * n * n)%nat /\
      is_Some (map_ex !! 1%nat) /\ is_Some (map_ex !! 2%nat).
Proof.
  eexists. split; [reflexivity|].
  eapply (init_success_conditions map_ex true false true false).
  reflexivity.
Defined.

Lemma init_resolution file pol verb ileak quleak self :
  init file pol verb ileak quleak = Ok self ->
  exists n i, nside self = Some n /\ I self = Some i /\
    length i = (12 * n * n)%nat.
Proof.
  unfold init, load_healpix_fits_map, set_leakage_to_zero.
  cbn -[npix2nside read_map].
  destruct (read_map file 0) as [i|]; [|by destruct pol].
  destruct pol.
  - destruct (read_map file 1) as [q|]; [|done].
    destruct (read_map file 2) as [u|]; [|done].
    cbn -[npix2nside].
    destruct (npix2nside (length i)) as [n|] eqn:Hn; [|done].
    apply npix2nside_Ok in Hn.
    destruct ileak, quleak; cbn; intros [= <-]; cbn; do 2 eexists;
      (split; [done|split; [done|]]); by rewrite ?length_fmap.
  - cbn -[npix2nside].
    destruct (npix2nside (length i)) as [n|] eqn:Hn; [|done].
    apply npix2nside_Ok in Hn.
    destruct ileak, quleak; cbn; intros [= <-]; cbn; do 2 eexists;
      (split; [done|split; [done|]]); by rewrite ?length_fmap.
Qed.

(** X14.  After a successful construction the resolution is set and agrees
    with the [I] array, zeroed or not: [nside = n] and [I] has
    [12 * n * n] pixels. *)
Theorem init_nside file pol verb ileak quleak self :
  init file pol verb ileak quleak = Ok self ->
  exists n i, nside self = Some n /\ I self = Some i /\
    length i = (12 * n * n)%nat.
Proof. apply init_resolution. Qed.

Lemma init_nside_witness :
  exists self, init map_ex true false true false = Ok self /\
    exists n i, nside self = Some n /\ I self = Some i /\
      length i = (12 * n * n)%nat.
Proof.
  eexists. split; [reflexivity|].
  apply (init_nside map_ex true false true false). reflexivity.
Defined.

(** X15.  Once the object is built, [load_healpix_fits_map] without [force]
    reads nothing and leaves the object as it is. *)
Theorem load_again_unchanged file pol verb ileak quleak self :
  init file pol verb ileak quleak = Ok self ->
  load_healpix_fits_map self false = Ok self.
Proof.
  intros Hinit. destruct (init_resolution _ _ _ _ _ _ Hinit) as (n & _ & Hn & _).
  unfold load_healpix_fits_map. rewrite Hn.
  rewrite decide_False; [done|]. by intros [|].
Qed.

Lemma load_again_unchanged_witness :
  exists self, init map_ex true false true true = Ok self /\
    load_healpix_fits_map self false = Ok self.
Proof.
  eexists. split; [reflexivity|].
  apply (load_again_unchanged map_ex true false true true). reflexivity.
Defined.

Lemma init_fields file pol verb ileak quleak self :
  init file pol verb ileak quleak = Ok self ->
  input_filename self = file /\ do_pol self = pol /\
  no_ileak self = ileak /\ no_quleak self = quleak.
Proof.
  unfold init, load_healpix_fits_map, set_leakage_to_zero.
  cbn -[npix2nside read_map].
  destruct (read_map file 0) as [i|]; [|by destruct pol].
  destruct pol.
  - destruct (read_map file 1) as [q|]; [|done].
    destruct (read_map file 2) as [u|]; [|done].
    cbn -[npix2nside]. destruct (npix2nside (length i)); [|done].
    by destruct ileak, quleak; cbn; intros [= <-].
  - cbn -[npix2nside]. destruct (npix2nside (length i)); [|done].
    by destruct ileak, quleak; cbn; intros [= <-].
Qed.

Lemma init_read_maps file pol verb ileak quleak self :
  init file pol verb ileak quleak = Ok self ->
  exists i, read_map file 0 = Ok i /\
    (if pol then exists q u, read_map file 1 = Ok q /\ read_map file 2 = Ok u
     else True).
Proof.
  unfold init, load_healpix_fits_map, set_leakage_to_zero.
  cbn -[npix2nside read_map].
  destruct (read_map file 0) as [i|]; [|by destruct pol].
  destruct pol; [|by eauto].
  destruct (read_map file 1) as [q|]; [|done].
  destruct (read_map file 2) as [u|]; [|done]. eauto 10.
Qed.

(** X16.  Leakage suppression is applied by the constructor only: a forced
    reload of a built object succeeds and puts the arrays of the file back
    in place of the zeroed ones, whatever the leakage flags say. *)
Theorem forced_reload_restores file pol verb ileak quleak self :
  init file pol verb ileak quleak = Ok self ->
  exists self', load_healpix_fits_map self true = Ok self' /\
    I self' = file !! 0%nat /\
    (pol = true -> Q self' = file !! 1%nat /\ U self' = file !! 2%nat) /\
    nside self' = nside self.
Proof.
  intros Hinit.
  destruct (init_fields _ _ _ _ _ _ Hinit) as (Hfile & Hpol & _ & _).
  destruct (init_resolution _ _ _ _ _ _ Hinit) as (n & i' & Hn & HI' & Hlen').
  destruct (init_Ok _ _ _ _ _ _ Hinit) as (i & Hi & HI & HQU).
  assert (npix2nside (length i) = Ok n) as Hnpix.
  { apply npix2nside_Ok. rewrite <- Hlen'. rewrite HI in HI'.
    injection HI' as <-. by destruct ileak; rewrite ?length_fmap. }
  destruct (init_read_maps _ _ _ _ _ _ Hinit) as (i0 & Hr0 & Hr12).
  pose proof (proj1 (proj1 (read_map_Ok _ _ _) Hr0)) as Hi0.
  rewrite Hi in Hi0. injection Hi0 as <-.
  unfold load_healpix_fits_map.
  rewrite decide_True by by right.
  rewrite Hfile, Hpol, Hr0.
  destruct pol.
  - destruct Hr12 as (q & u & Hq & Hu). rewrite Hq, Hu.
    apply read_map_Ok in Hq as [-> _]. apply read_map_Ok in Hu as [-> _].
    cbn -[npix2nside]. rewrite Hnpix. cbn. eexists. split; [done|].
    cbn. by rewrite Hn, Hi.
  - cbn -[npix2nside]. rewrite Hnpix. cbn. eexists. split; [done|].
    cbn. by rewrite Hn, Hi.
Qed.

Lemma forced_reload_restores_witness :
  exists self, init map_ex true false true true = Ok self /\
    exists self', load_healpix_fits_map self true = Ok self' /\
      I self' = map_ex !! 0%nat /\
      (true = true -> Q self' = map_ex !! 1%nat /\ U self' = map_ex !! 2%nat) /\
      nside self' = nside self.
Proof.
  eexists. split; [reflexivity|].
  apply (forced_reload_restores map_ex true false true true). reflexivity.
Defined.

(** X17.  [set_leakage_to_zero] is idempotent: applied to its own result it
    returns that result. *)
Theorem set_leakage_to_zero_idempotent (self self1 : HealpixFitsMap) :
  set_leakage_to_zero self = Ok self1 ->
  set_leakage_to_zero self1 = Ok self1.
Proof.
  destruct self as [file pol verb ileak quleak n i q u].
  unfold set_leakage_to_zero. cbn.
  destruct ileak, quleak, i as [i|], q as [q|], u as [u|]; cbn;
    try done; intros [= <-]; cbn.
  all: repeat (case_decide; cbn;
               try match goal with
                   | H : ~ (Some _ <> None) |- _ => by destruct H
                   | H : None <> None |- _ => by destruct H
                   end).
  all: by rewrite <- ?list_fmap_compose.
Qed.

(** An object holding a map without [U]. *)
Definition loaded_ex : HealpixFitsMap :=
  {| input_filename := map_ex; do_pol := true; verbose := false;
     no_ileak := true; no_quleak := true; nside := Some 1%nat;
     I := Some [1; 2; 3]; Q := Some [4; 5; 6]; U := None |}.

Lemma set_leakage_to_zero_idempotent_witness :
  exists self1,
    set_leakage_to_zero loaded_ex = Ok self1 /\
    set_leakage_to_zero self1 = Ok self1.
Proof.
  eexists. split; [reflexivity|].
  apply (set_leakage_to_zero_idempotent loaded_ex). reflexivity.
Defined.

(** *** FITS header entries ([add_hierarch], [write_healpix_cmbmap]) *)

(** The values found in header tuples: strings and numbers. *)
Inductive pyval : Type :=
| PStr (s : string)
| PNum (x : R).

(** ['HIERARCH ' + x]: defined on strings only. *)
Definition hierarch_key (x : pyval) : result pyval :=
  match x with
  | PStr s => Ok (PStr ("HIERARCH " +:+ s))
  | PNum _ => Raise TypeError
  end.

(** The tuple built for one [item], lines 178-181. *)
Definition hierarch_item (item : list pyval) : result (list pyval) :=
  if decide (length item = 3%nat) then
    k ← getitem item 0; k ← hierarch_key k;
    v ← getitem item 1;
    c ← getitem item 2;
    Ok [k; v; c]
  else
    k ← getitem item 0; k ← hierarch_key k;
    v ← getitem item 1;
    Ok [k; v].

(** The loop of [add_hierarch]: [n] entries are still to visit, [i] is the
    index reached.  The list is updated in place, so the function returns
    the list as it stands at the end together with the exception raised, if
    any. *)
Fixpoint add_hierarch_loop (n i : nat) (lis : list (list pyval))
  : list (list pyval) * option exn :=
  match n with
  | O => (lis, None)
  | S n' =>
      match lis !! i with
      | None => (lis, None)
      | Some item =>
          match hierarch_item item with
          | Ok t => add_hierarch_loop n' (S i) (<[i := t]> lis)
          | Raise e => (lis, Some e)
          end
      end
  end.

(** [add_hierarch(lis)]; on success the list returned is [lis] itself. *)
Definition add_hierarch (lis : list (list pyval))
  : list (list pyval) * option exn :=
  add_hierarch_loop (length lis) 0 lis.

(** The arguments of a call of [hp.write_map]. *)
Record write_map_call : Type := {
  wm_filename : string;
  wm_data : list (list R);
  wm_fits_IDL : bool;
  wm_coord : option string;
  wm_column_names : option (list string);
  wm_partial : bool;
  wm_extra_header : list (list pyval)
}.

(** [write_healpix_cmbmap(output_filename, data, nside, fits_IDL, coord,
    colnames, nest)], up to the call of [hp.write_map], which is healpy's:
    the function is modelled by the call it makes.  [colnames] is [None]
    when the argument is left out. *)
Definition write_healpix_cmbmap (output_filename : string)
    (data : list (list R)) (nside : nat) (fits_IDL : bool)
    (coord : option string) (colnames : option (list pyval)) (nest : bool)
  : result write_map_call :=
  match colnames with
  | None => Raise TypeError
  | Some colnames =>
      let extra_header :=
        foldl (fun header c => header ++ [[PStr "column_names"; c]]) []
          colnames in
      match add_hierarch extra_header with
      | (_, Some e) => Raise e
      | (extra_header, None) =>
          Ok {| wm_filename := output_filename; wm_data := data;
                wm_fits_IDL := fits_IDL; wm_coord := coord;
                wm_column_names := None; wm_partial := true;
                wm_extra_header := extra_header |}
      end
  end.

Example add_hierarch_ex :
  add_hierarch [[PStr "a"; PNum 1]; [PStr "b"; PNum 2; PStr "two"];
                [PStr "c"; PNum 3; PStr "three"; PStr "more"]] =
  ([[PStr "HIERARCH a"; PNum 1]; [PStr "HIERARCH b"; PNum 2; PStr "two"];
    [PStr "HIERARCH c"; PNum 3]], None).
Proof. reflexivity. Qed.

(** A header tuple the loop accepts: a string key, a value, and whatever
    follows. *)
Definition keyed (item : list pyval) : Prop :=
  exists s v rest, item = PStr s :: v :: rest.

(** What the loop makes of an accepted tuple. *)
Definition prefixed (item : list pyval) : list pyval :=
  match item with
  | [PStr s; v; c] => [PStr ("HIERARCH " +:+ s); v; c]
  | PStr s :: v :: _ => [PStr ("HIERARCH " +:+ s); v]
  | _ => item
  end.

Lemma hierarch_item_keyed (item : list pyval) :
  keyed item -> hierarch_item item = Ok (prefixed item).
Proof.
  intros (s & v & rest & ->). unfold hierarch_item.
  destruct rest as [|c [|c' rest]]; reflexivity.
Qed.

Lemma hierarch_item_not_keyed (item : list pyval) :
  ~ keyed item -> exists e, hierarch_item item = Raise e.
Proof.
  intros Hno. unfold hierarch_item.
  destruct item as [|[s|x] [|v rest]].
  - by eexists.
  - destruct (decide _); by eexists.
  - destruct Hno. by exists s, v, rest.
  - destruct (decide _); by eexists.
  - destruct (decide _); by eexists.
Qed.

Lemma add_hierarch_loop_keyed (pre todo : list (list pyval)) :
  Forall keyed todo ->
  add_hierarch_loop (length todo) (length pre) (pre ++ todo) =
  (pre ++ (prefixed <$> todo), None).
Proof.
  revert pre. induction todo as [|item todo IH]; intros pre Hall.
  - simpl. by rewrite !app_nil_r.
  - apply Forall_cons in Hall as [Hitem Hall]. cbn [length add_hierarch_loop].
    rewrite list_lookup_middle by done.
    rewrite hierarch_item_keyed by done.
    replace (<[length pre := prefixed item]> (pre ++ item :: todo))
      with ((pre ++ [prefixed item]) ++ todo).
    + replace (S (length pre)) with (length (pre ++ [prefixed item]))
        by (rewrite length_app; simpl; lia).
      rewrite IH by done. by rewrite <- app_assoc.
    + rewrite insert_app_r_alt by done. rewrite Nat.sub_diag.
      by rewrite <- app_assoc.
Qed.

(** X18.  When every tuple starts with a string key followed by a value,
    [add_hierarch] succeeds and rewrites the list entry by entry: the key
    gets the prefix [HIERARCH ], the value is kept, a third element is kept
    only in tuples of exactly three elements; longer tuples are cut down to
    key and value. *)
Theorem add_hierarch_keyed (lis : list (list pyval)) :
  Forall keyed lis ->
  add_hierarch lis = (prefixed <$> lis, None).
Proof.
  intros Hall. apply (add_hierarch_loop_keyed [] lis Hall).
Qed.

Lemma add_hierarch_keyed_witness :
  add_hierarch [[PStr "a"; PNum 1]; [PStr "c"; PNum 3; PStr "x"; PStr "y"]] =
  (prefixed <$> [[PStr "a"; PNum 1]; [PStr "c"; PNum 3; PStr "x"; PStr "y"]],
   None).
Proof.
  apply add_hierarch_keyed. repeat constructor; by do 3 eexists.
Defined.

(** X19.  At the first tuple that is not a string key followed by a value
    (too short, or with a key that is not a string) [add_hierarch] raises,
    and the list is left half converted: the entries before that tuple are
    rewritten, that tuple and the entries after it are untouched. *)
Theorem add_hierarch_partial (before : list (list pyval)) (bad : list pyval)
    (rest : list (list pyval)) :
  Forall keyed before ->
  ~ keyed bad ->
  exists e, add_hierarch (before ++ bad :: rest) =
            ((prefixed <$> before) ++ bad :: rest, Some e).
Proof.
  intros Hdone Hbad. unfold add_hierarch.
  destruct (hierarch_item_not_keyed bad Hbad) as [e He]. exists e.
  rewrite length_app. cbn [length].
  assert (forall (pre todo : list (list pyval)) n,
            Forall keyed todo ->
            add_hierarch_loop (length todo + S n) (length pre)
              (pre ++ todo ++ bad :: rest) =
            (pre ++ (prefixed <$> todo) ++ bad :: rest, Some e)) as Hloop.
  { intros pre todo n. revert pre.
    induction todo as [|item todo IH]; intros pre Hall.
    - cbn [length Nat.add add_hierarch_loop app fmap list_fmap].
      rewrite list_lookup_middle by done. by rewrite He.
    - apply Forall_cons in Hall as [Hitem Hall].
      cbn [length Nat.add add_hierarch_loop].
      rewrite <- app_comm_cons, list_lookup_middle by done.
      rewrite hierarch_item_keyed by done.
      rewrite insert_app_r_alt by done. rewrite Nat.sub_diag.
      cbn [insert list_insert].
      replace (S (length pre)) with (length (pre ++ [prefixed item]))
        by (rewrite length_app; simpl; lia).
      replace (pre ++ prefixed item :: todo ++ bad :: rest)
        with ((pre ++ [prefixed item]) ++ todo ++ bad :: rest)
        by by rewrite <- app_assoc.
      rewrite IH by done. by rewrite <- app_assoc. }
  apply (Hloop [] before (length rest) Hdone).
Qed.

Lemma add_hierarch_partial_witness :
  exists e, add_hierarch ([[PStr "a"; PNum 1]] ++ [PNum 2; PNum 3]
                          :: [[PStr "b"; PNum 4]]) =
            ((prefixed <$> [[PStr "a"; PNum 1]]) ++ [PNum 2; PNum 3]
             :: [[PStr "b"; PNum 4]], Some e).
Proof.
  apply add_hierarch_partial.
  - repeat constructor. by do 3 eexists.
  - by intros (s & v & rest & [=]).
Defined.

Lemma column_names_header (colnames : list pyval) (header : list (list pyval)) :
  foldl (fun header c => header ++ [[PStr "column_names"; c]]) header colnames
  = header ++ ((fun c => [PStr "column_names"; c]) <$> colnames).
Proof.
  revert header. induction colnames as [|c colnames IH]; intros header; simpl.
  - by rewrite app_nil_r.
  - by rewrite IH, <- app_assoc.
Qed.

(** X20.  Given column names, [write_healpix_cmbmap] always reaches
    [hp.write_map]: it passes the file name, the data, [fits_IDL] and
    [coord] on, [partial=True], no [column_names], and one header entry
    [('HIERARCH column_names', c)] per name [c], in order.  The arguments
    [nside] and [nest] are not passed on: the call is the same for all their
    values. *)
Theorem write_healpix_cmbmap_call output_filename data nside fits_IDL coord
    (colnames : list pyval) nest :
  write_healpix_cmbmap output_filename data nside fits_IDL coord
    (Some colnames) nest =
  Ok {| wm_filename := output_filename; wm_data := data;
        wm_fits_IDL := fits_IDL; wm_coord := coord;
        wm_column_names := None; wm_partial := true;
        wm_extra_header :=
          (fun c => [PStr "HIERARCH column_names"; c]) <$> colnames |}.
Proof.
  unfold write_healpix_cmbmap. rewrite column_names_header, app_nil_l.
  assert (Forall keyed ((fun c => [PStr "column_names"; c]) <$> colnames))
    as Hkeyed.
  { apply Forall_fmap, Forall_true. intros c. by do 3 eexists. }
  pose proof (add_hierarch_loop_keyed [] _ Hkeyed) as Hrun.
  cbn [length app] in Hrun. unfold add_hierarch. rewrite Hrun.
  by rewrite <- list_fmap_compose.
Qed.

End HealpixFitsMap.
